(* ====================================================================== *)
(*  dipy/reconst/shm.py : spherical-harmonic models of diffusion data     *)
(*  A shallow embedding of the module and the properties proved about it. *)
(*                                                                        *)
(*  Conventions of the embedding                                          *)
(*   - Python integers and the entries of integer ndarrays are Z; the     *)
(*     module is Python-2 code, so [/] between integers is floor          *)
(*     division (Z.div).                                                  *)
(*   - one-dimensional integer arrays are [seq Z]; the contents of an     *)
(*     array made by [numpy.empty] are unspecified and are supplied by a  *)
(*     parameter [junk].                                                  *)
(*   - a raised exception is a value [Raise e] of the type [result].      *)
(*   - floating-point arrays are MathComp matrices over a real field R:   *)
(*     arithmetic is exact, shapes are part of the types, and the numpy / *)
(*     scipy primitives (pinv, svd, log, sqrt, sph_harm, lpn) are         *)
(*     parameters of the sections that use them.                          *)
(*   - what exact arithmetic leaves out.  Rounding: two expressions that  *)
(*     are equal over R may differ in the last bit in binary64.  Division *)
(*     by zero and not-a-number: the quotient x / 0 of the field is 0,    *)
(*     where numpy gives inf or nan, and 0 * x is 0, where numpy gives    *)
(*     nan for a nan x.  A property stated over R is a property of the    *)
(*     running code up to rounding, and only where no divisor is zero:    *)
(*     the theorems on the values of normalize_data and lcr_matrix carry  *)
(*     that hypothesis.                                                   *)
(*   - the two bootstrap routines are given a second time over an         *)
(*     arbitrary carrier with an addition and a product that obey no law, *)
(*     which binary64 instantiates, to tell what holds bit for bit from   *)
(*     what holds in exact arithmetic only.                               *)
(* ====================================================================== *)

From HB Require Import structures.
From Stdlib Require Import ZArith Lia ZifyBool String PrimFloat.
From mathcomp Require Import ssreflect ssrfun ssrbool eqtype ssrnat seq path.
From mathcomp Require Import choice fintype finfun bigop tuple order.
From mathcomp Require Import ssralg ssrnum ssrint matrix rat.

Set Implicit Arguments.
Unset Strict Implicit.
Unset Printing Implicit Defensive.

Import Order.TTheory GRing.Theory Num.Theory.

Delimit Scope Z_scope with Z.

(* ---------------------------------------------------------------------- *)
(** * Exceptions                                                           *)
(* ---------------------------------------------------------------------- *)

Inductive exn : Type :=
| ValueError (msg : string)
| IndexError (msg : string)
| AssertionError.

Inductive result (A : Type) : Type :=
| Ok (a : A)
| Raise (e : exn).

Arguments Ok {A} a.
Arguments Raise {A} e.

Definition bind {A B : Type} (r : result A) (k : A -> result B) : result B :=
  match r with
  | Ok a => k a
  | Raise e => Raise e
  end.

Notation "x <- r ;; k" := (bind r (fun x => k))
  (at level 100, r at next level, right associativity).

Definition raises {A : Type} (r : result A) : bool :=
  if r is Raise _ then true else false.

(* Z as an eqType, so that integer arrays can be searched and compared. *)
HB.instance Definition _ := hasDecEq.Build Z Z.eqb_spec.

(* ---------------------------------------------------------------------- *)
(** * The numpy operations on integer arrays used by the module            *)
(* ---------------------------------------------------------------------- *)

Section IntArrays.
Local Open Scope Z_scope.

(** [numpy.arange(start, stop, step)] for a non-zero step: the values
    [start + i*step] for [0 <= i < ceil((stop - start) / step)]. *)
Definition arange (start stop step : Z) : seq Z :=
  [seq start + step * Z.of_nat i
  | i <- iota 0 (Z.to_nat (- ((start - stop) / step)))].

(** [numpy.repeat(a, counts)]: element [k] of [a] repeated [counts[k]]
    times; a negative count is refused. *)
Definition repeat (a counts : seq Z) : result (seq Z) :=
  if has (fun c => c <? 0) counts
  then Raise (ValueError "repeats may not contain negative values.")
  else Ok (flatten [seq nseq (Z.to_nat p.2) p.1 | p <- zip a counts]).

(** [numpy.empty(n, 'int')]: [n] cells of unspecified content. *)
Definition empty (junk : nat -> Z) (n : Z) : result (seq Z) :=
  if n <? 0 then Raise (ValueError "negative dimensions are not allowed")
  else Ok (mkseq junk (Z.to_nat n)).

(** A slice bound [x] of [a[lo:hi]] on an array of length [len], as
    Python's [slice.indices] normalises it for a positive step. *)
Definition slice_bound (len x : Z) : Z :=
  if x <? 0 then Z.max (x + len) 0 else Z.min x len.

(** [a[lo:hi] = v]: the selected cells are overwritten by [v], which has
    to have as many entries as the slice selects (or one, broadcast). *)
Definition setslice (a : seq Z) (lo hi : Z) (v : seq Z) : result (seq Z) :=
  let len := Z.of_nat (size a) in
  let lo' := Z.to_nat (slice_bound len lo) in
  let k := Z.to_nat (slice_bound len hi - slice_bound len lo) in
  if size v == k then Ok (take lo' a ++ v ++ drop (lo' + k)%N a)
  else if size v == 1%N then
    Ok (take lo' a ++ nseq k (head 0 v) ++ drop (lo' + k)%N a)
  else Raise (ValueError "could not broadcast input array").

(* ---------------------------------------------------------------------- *)
(** * sph_harm_ind_list                                                    *)
(* ---------------------------------------------------------------------- *)

(** The loop
<<
    for ii in n_range:
        m_list[offset:offset+2*ii+1] = np.arange(-ii, ii+1)
        offset = offset + 2*ii + 1
>>
    threading [m_list] and [offset]. *)
Fixpoint fill_m_list (n_range m_list : seq Z) (offset : Z) : result (seq Z) :=
  match n_range with
  | [::] => Ok m_list
  | ii :: rest =>
      m_list' <- setslice m_list offset (offset + 2 * ii + 1)
                   (arange (- ii) (ii + 1) 1) ;;
      fill_m_list rest m_list' (offset + 2 * ii + 1)
  end.

Definition sph_harm_ind_list (junk : nat -> Z) (sh_order : Z)
  : result (seq Z * seq Z) :=
  if sh_order mod 2 != 0 then
    Raise (ValueError "sh_order must be an even integer >= 0")
  else
    let n_range := arange 0 (sh_order + 1) 2 in
    n_list <- repeat n_range [seq n * 2 + 1 | n <- n_range] ;;
    let ncoef := (sh_order + 2) * (sh_order + 1) / 2 in
    let offset := 0 in
    m_list <- empty junk ncoef ;;
    m_list <- fill_m_list n_range m_list offset ;;
    Ok (m_list, n_list).

End IntArrays.

(* ---------------------------------------------------------------------- *)
(** * lazy_index, and indexing a one-dimensional array                     *)
(* ---------------------------------------------------------------------- *)

(** A one-dimensional index array as [numpy.array(index)] reads it: of
    boolean dtype (a mask) or of integer dtype (positions). *)
Inductive index : Type :=
| BoolIndex (mask : seq bool)
| IntIndex (pos : seq Z).

(** What [lazy_index] returns: [slice(start, stop, step)] (a step that is
    not given is [None]) or an integer array. *)
Inductive lazy : Type :=
| Slice (start stop : Z) (step : option Z)
| Array (pos : seq Z).

Section LazyIndex.
Local Open Scope Z_scope.

(** [mask.nonzero()[0]]: the positions of the true entries, ascending. *)
Fixpoint nonzero_from (k : Z) (mask : seq bool) : seq Z :=
  match mask with
  | [::] => [::]
  | b :: rest =>
      if b then k :: nonzero_from (k + 1) rest else nonzero_from (k + 1) rest
  end.

Definition nonzero (mask : seq bool) : seq Z := nonzero_from 0 mask.

(** [numpy.diff]: the differences of consecutive entries. *)
Fixpoint diff (a : seq Z) : seq Z :=
  match a with
  | x :: rest => if rest is y :: _ then (y - x) :: diff rest else [::]
  | [::] => [::]
  end.

(** [numpy.unique]: the distinct values, sorted. *)
Definition unique (a : seq Z) : seq Z := sort Z.leb (undup a).

Definition lazy_index (ix : index) : lazy :=
  let index := match ix with
               | BoolIndex mask => nonzero mask
               | IntIndex pos => pos
               end in
  if size index == 1%N then Slice (head 0 index) (head 0 index + 1) None
  else
    let step := unique (diff index) in
    if (size step != 1%N) || (head 0 step == 0) then Array index
    else Slice (head 0 index) (last 0 index + 1) (Some (head 0 step)).

Variable T : Type.
Variable x0 : T.

(** [A[pos]] for an integer array [pos]: a negative position counts from
    the end, a position outside [-len, len) is an IndexError. *)
Fixpoint getitem_ints (A : seq T) (pos : seq Z) : result (seq T) :=
  match pos with
  | [::] => Ok [::]
  | p :: rest =>
      let len := Z.of_nat (size A) in
      if (p <? - len) || (len <=? p) then
        Raise (IndexError "index is out of bounds")
      else
        xs <- getitem_ints A rest ;;
        Ok (nth x0 A (Z.to_nat (if p <? 0 then p + len else p)) :: xs)
  end.

(** [A[mask]] for a boolean array of the length of [A]. *)
Definition getitem_mask (A : seq T) (bs : seq bool) : result (seq T) :=
  if size bs != size A then
    Raise (IndexError "boolean index did not match indexed array")
  else Ok (mask bs A).

(** A slice bound for a negative step, as [slice.indices] normalises it. *)
Definition slice_bound_neg (len x : Z) : Z :=
  if x <? 0 then Z.max (x + len) (-1) else Z.min x (len - 1).

(** [A[start:stop:step]]: the positions are the range that Python's
    [slice.indices] gives for the length of [A]. *)
Definition getitem_slice (A : seq T) (start stop : Z) (step : option Z)
  : result (seq T) :=
  let len := Z.of_nat (size A) in
  let st := if step is Some s then s else 1 in
  if st == 0 then Raise (ValueError "slice step cannot be zero")
  else
    let bound := if 0 <? st then slice_bound len else slice_bound_neg len in
    Ok [seq nth x0 A (Z.to_nat p) | p <- arange (bound start) (bound stop) st].

(** Indexing with what [lazy_index] returned. *)
Definition getitem_lazy (A : seq T) (l : lazy) : result (seq T) :=
  match l with
  | Slice start stop step => getitem_slice A start stop step
  | Array pos => getitem_ints A pos
  end.

(** Indexing with the index array itself. *)
Definition getitem_index (A : seq T) (ix : index) : result (seq T) :=
  match ix with
  | BoolIndex bs => getitem_mask A bs
  | IntIndex pos => getitem_ints A pos
  end.

End LazyIndex.

(* ---------------------------------------------------------------------- *)
(** * Real-valued arrays and the external numeric primitives              *)
(* ---------------------------------------------------------------------- *)

Section Numeric.
Local Open Scope ring_scope.

Variable R : realFieldType.

(** [numpy.sqrt] and [numpy.log]. *)
Variables sqrt log : R -> R.

(** [numpy.linalg.pinv]. *)
Variable pinv : forall p q : nat, 'M[R]_(p, q) -> 'M[R]_(q, p).

(** The real and the imaginary part of [scipy.special.sph_harm(m, n, theta,
    phi)]. *)
Variables sph_harm_re sph_harm_im : Z -> Z -> R -> R -> R.

(** An integer array entry used as a float. *)
Definition Z_to_int (z : Z) : int :=
  match z with
  | Z0 => 0
  | Zpos p => Posz (Pos.to_nat p)
  | Zneg p => Negz (Pos.to_nat p).-1
  end.

Definition of_Z (z : Z) : R := (Z_to_int z)%:~R.

(** [numpy.clip(x, lo, hi)] is [minimum(maximum(x, lo), hi)]; with one
    bound only, [x.clip(lo)], it is [maximum(x, lo)]. *)
Definition clip (lo hi x : R) : R := Num.min (Num.max x lo) hi.

Definition clip_min (lo x : R) : R := Num.max x lo.

(* ---------------------------------------------------------------------- *)
(** ** Basis functions (one entry of the broadcast result)                 *)
(* ---------------------------------------------------------------------- *)

Definition real_sph_harm (m n : Z) (theta phi : R) : R :=
  let sh_real := sph_harm_re m n theta phi in
  let sh_imag := sph_harm_im m n theta phi in
  if m == 0%Z then sh_real
  else if (0 <? m)%Z then sh_real * sqrt 2
  else sh_imag * sqrt 2.

(** [neg_ones = -1*np.ones(sh.shape)**(m+1)]: the power binds tighter than
    the product, so it is [-1] times a power of one. *)
Definition real_sph_harm_mrtrix (m n : Z) (theta phi : R) : R :=
  let sh_real := sph_harm_re m n theta phi in
  let sh_imag := sph_harm_im m n theta phi in
  let neg_ones := -1 * (1 ^ Z_to_int (m + 1)) in
  if m == 0%Z then sh_real
  else if (0 <? m)%Z then sh_real
  else neg_ones * sh_imag.

Definition real_sph_harm_fibernav (m n : Z) (theta phi : R) : R :=
  let sh_real := sph_harm_re m n theta phi in
  let sh_imag := sph_harm_im m n theta phi in
  let sh2_real := sph_harm_re (Z.abs m) n theta phi in
  if m == 0%Z then sh_real
  else if (0 <? m)%Z then sh_imag * sqrt 2
  else sh2_real * sqrt 2.

(** The dictionary [sph_harm_lookup] read with [.get]: an absent key gives
    [None]. *)
Definition sph_harm_lookup (basis_type : option string)
  : option (Z -> Z -> R -> R -> R) :=
  match basis_type with
  | None => Some real_sph_harm
  | Some name =>
      if (name =? "mrtrix")%string then Some real_sph_harm_mrtrix
      else if (name =? "fibernav")%string then Some real_sph_harm_fibernav
      else None
  end.

(** [sph_harm_basis(m, n, azi[:, None], pol[:, None])]: row [i] is the
    point [i], column [j] the index pair [(m[j], n[j])]. *)
Definition basis_matrix (sph_harm_basis : Z -> Z -> R -> R -> R)
    (m n : seq Z) (q : nat) (azi pol : 'rV[R]_q) : 'M[R]_(q, size m) :=
  \matrix_(i, j) sph_harm_basis (nth 0%Z m j) (nth 0%Z n j) (azi 0 i) (pol 0 i).

(** [-n*(n+1)] on the degree list, one entry per column of the basis. *)
Definition laplace_beltrami (n : seq Z) (k : nat) : 'rV[R]_k :=
  \row_j of_Z (- nth 0%Z n j * (nth 0%Z n j + 1))%Z.

(* ---------------------------------------------------------------------- *)
(** ** smooth_pinv                                                         *)
(* ---------------------------------------------------------------------- *)

Definition smooth_pinv (n m : nat) (B : 'M[R]_(n, m)) (L : 'rV[R]_m)
  : 'M[R]_(m, n) :=
  let L := diag_mx L in
  let inv := pinv (col_mx B L) in
  lsubmx inv.

(** The four Penrose equations: [X] is the Moore-Penrose pseudo-inverse of
    [A]. *)
Definition is_pinv (p q : nat) (A : 'M[R]_(p, q)) (X : 'M[R]_(q, p)) : Prop :=
  [/\ A *m X *m A = A, X *m A *m X = X,
      (A *m X)^T = A *m X & (X *m A)^T = X *m A].

(* ---------------------------------------------------------------------- *)
(** ** normalize_data                                                      *)
(* ---------------------------------------------------------------------- *)

(** The kind of an array's dtype, as [dtype.kind] gives it. *)
Inductive dtype_kind : Type := KindFloat | KindInt | KindBool.

(** [data] has one row per voxel and one column per acquisition;
    [where_b0] lists the columns of the b0 acquisitions.  [out], when
    given, is the array the result is written to: only its dtype matters
    for the value returned.  The division is the field's: where the mean
    of the clipped b0 channels of a signal is zero, or there is no b0
    channel, the source gives inf or nan and this definition 0. *)
Definition normalize_data (V N nb : nat) (data : 'M[R]_(V, N))
    (where_b0 : nb.-tuple 'I_N) (min_signal : R) (out : option dtype_kind)
  : result 'M[R]_(V, N) :=
  out <- match out with
         | None => Ok data
         | Some kind =>
             if kind is KindFloat then Ok data
             else Raise (ValueError "out must be floating point")
         end ;;
  let out := map_mx (clip_min min_signal) out in
  let b0 := \col_i ((\sum_(j < nb) out i (tnth where_b0 j)) / nb%:R) in
  let out := \matrix_(i, k) (out i k / b0 i 0) in
  Ok out.

(* ---------------------------------------------------------------------- *)
(** ** The models: fit matrices and coefficient formulas                   *)
(* ---------------------------------------------------------------------- *)

Section Models.

(** Acquisitions, b0 acquisitions, diffusion-weighted acquisitions and
    spherical-harmonic coefficients. *)
Variables N nb nd nc : nat.

Definition CsaOdfModel_min : R := 1 / 1000%:R.
Definition CsaOdfModel_max : R := 999%:R / 1000%:R.

Definition CsaOdfModel_set_fit_matrix (B : 'M[R]_(nd, nc)) (L F : 'rV[R]_nc)
    (smooth : R) : 'M[R]_(nc, nd) :=
  let invB := smooth_pinv B (sqrt smooth *: L) in
  \matrix_(k, j) (F 0 k * L 0 k * invB k j).

Definition CsaOdfModel_get_shm_coef (V : nat) (_fit_matrix : 'M[R]_(nc, nd))
    (_where_dwi : nd.-tuple 'I_N) (data : 'M[R]_(V, N)) : 'M[R]_(V, nc) :=
  let data := colsub (tnth _where_dwi) data in
  let data := map_mx (clip CsaOdfModel_min CsaOdfModel_max) data in
  let loglog_data := map_mx (fun x => log (- log x)) data in
  loglog_data *m _fit_matrix^T.

Definition OpdtModel_set_fit_matrix (B : 'M[R]_(nd, nc)) (L F : 'rV[R]_nc)
    (smooth : R) : 'M[R]_(nc, nd) * 'M[R]_(nc, nd) :=
  let invB := smooth_pinv B (sqrt smooth *: L) in
  let delta_b := \matrix_(k, j) (F 0 k * L 0 k * invB k j) in
  let delta_q := \matrix_(k, j) (4%:R * F 0 k * invB k j) in
  (delta_b, delta_q).

Definition _slowadc_formula (V : nat) (data : 'M[R]_(V, nd))
    (delta_b delta_q : 'M[R]_(nc, nd)) : 'M[R]_(V, nc) :=
  let logd := map_mx (fun x => - log x) data in
  (\matrix_(i, j) (logd i j * (3%:R / 2%:R - logd i j) * data i j))
     *m delta_q^T
  - data *m delta_b^T.

Definition OpdtModel_get_shm_coef (V : nat)
    (_fit_matrix : 'M[R]_(nc, nd) * 'M[R]_(nc, nd))
    (_where_dwi : nd.-tuple 'I_N) (data : 'M[R]_(V, N)) : 'M[R]_(V, nc) :=
  let: (delta_b, delta_q) := _fit_matrix in
  _slowadc_formula (colsub (tnth _where_dwi) data) delta_b delta_q.

Definition QballModel_set_fit_matrix (B : 'M[R]_(nd, nc)) (L F : 'rV[R]_nc)
    (smooth : R) : 'M[R]_(nc, nd) :=
  let invB := smooth_pinv B (sqrt smooth *: L) in
  \matrix_(k, j) (F 0 k * invB k j).

Definition QballModel_get_shm_coef (V : nat) (_fit_matrix : 'M[R]_(nc, nd))
    (_where_dwi : nd.-tuple 'I_N) (data : 'M[R]_(V, N)) : 'M[R]_(V, nc) :=
  colsub (tnth _where_dwi) data *m _fit_matrix^T.

(** The three subclasses of [SphHarmModel], each with the fit matrix its
    [_set_fit_matrix] stored. *)
Inductive fit_matrix : Type :=
| CsaOdfModel (M : 'M[R]_(nc, nd))
| OpdtModel (M : 'M[R]_(nc, nd) * 'M[R]_(nc, nd))
| QballModel (M : 'M[R]_(nc, nd)).

Record SphHarmModel : Type := mkSphHarmModel {
  _where_b0s : nb.-tuple 'I_N;
  _where_dwi : nd.-tuple 'I_N;
  assume_normed : bool;
  min_signal : R;
  _fit_matrix : fit_matrix
}.

Definition _get_shm_coef (V : nat) (self : SphHarmModel)
    (data : 'M[R]_(V, N)) : 'M[R]_(V, nc) :=
  match _fit_matrix self with
  | CsaOdfModel M => CsaOdfModel_get_shm_coef M (_where_dwi self) data
  | OpdtModel M => OpdtModel_get_shm_coef M (_where_dwi self) data
  | QballModel M => QballModel_get_shm_coef M (_where_dwi self) data
  end.

(** [SphHarmModel.fit]: the coefficient array of the fit (the mask is one
    flag per voxel).  The product with the mask is the field's: outside
    the mask it is 0, where the source keeps a coefficient that is nan. *)
Definition fit (V : nat) (self : SphHarmModel) (data : 'M[R]_(V, N))
    (mask : option (V.-tuple bool)) : result 'M[R]_(V, nc) :=
  data <- (if assume_normed self then Ok data
           else normalize_data data (_where_b0s self) (min_signal self) None) ;;
  let coef := _get_shm_coef self data in
  Ok (match mask with
      | Some mask => \matrix_(i, k) (coef i k * (tnth mask i)%:R)
      | None => coef
      end).

(** [SphHarmFit]: a model with the coefficients it fitted to [V] voxels and
    the mask the fit was made with. *)
Record SphHarmFit (V : nat) : Type := mkSphHarmFit {
  SphHarmFit_model : SphHarmModel;
  _shm_coef : 'M[R]_(V, nc);
  SphHarmFit_mask : option (V.-tuple bool)
}.

(** [SphHarmModel.fit] with the object it returns. *)
Definition SphHarmModel_fit (V : nat) (self : SphHarmModel)
    (data : 'M[R]_(V, N)) (mask : option (V.-tuple bool))
  : result (SphHarmFit V) :=
  coef <- fit self data mask ;;
  Ok (mkSphHarmFit self coef mask).

(** [SphHarmFit.__getitem__] for an index that is an array of [k] voxel
    numbers: it is not a tuple, so [coef_index] is the index itself. *)
Definition SphHarmFit_getitem (V k : nat) (self : SphHarmFit V)
    (index : k.-tuple 'I_V) : result (SphHarmFit k) :=
  let coef_index := index in
  let new_coef := rowsub (tnth coef_index) (_shm_coef self) in
  match SphHarmFit_mask self with
  | Some mask =>
      let new_mask := [tuple tnth mask (tnth index i) | i < k] in
      if size new_mask == k
      then Ok (mkSphHarmFit (SphHarmFit_model self) new_coef (Some new_mask))
      else Raise AssertionError
  | None => Ok (mkSphHarmFit (SphHarmFit_model self) new_coef None)
  end.

End Models.

(* ---------------------------------------------------------------------- *)
(** ** Residual bootstrap                                                  *)
(* ---------------------------------------------------------------------- *)

(** The factor [U] of [numpy.linalg.svd(B, False)]. *)
Variable svd_U : forall p q : nat, 'M[R]_(p, q) -> 'M[R]_(p, minn p q).

Definition hat (p q : nat) (B : 'M[R]_(p, q)) : 'M[R]_p :=
  let U := svd_U B in
  U *m U^T.

(** [H] is square by its type, so the shape test of the source passes.
    The division is the field's: where a leverage sqrt(1 - H_ii) is zero
    the source gives nan and this definition 0. *)
Definition lcr_matrix (n : nat) (H : 'M[R]_n) : 'M[R]_n :=
  let leverages := \col_i sqrt (1 - H i i) in
  let R0 := \matrix_(i, j) ((1%:M - H) i j / leverages i 0) in
  \matrix_(i, j) (R0 i j - (\sum_k R0 k j) / n%:R).

(** [permute] is an array of [n] row numbers of [R]; when it is not given
    it is drawn by [randint(n, size=n)], whose outcome is [draw].  The two
    assertions of the source on the shapes hold by the types.  These are
    the two routines in exact arithmetic; [bootstrap_data_array_fl] and
    [bootstrap_data_voxel_fl] below are the same two routines on a carrier
    whose operations round. *)
Definition bootstrap_data_array (V n : nat) (draw : n.-tuple 'I_n)
    (data : 'M[R]_(V, n)) (H Rm : 'M[R]_n) (permute : option (n.-tuple 'I_n))
  : 'M[R]_(V, n) :=
  let permute := if permute is Some p then p else draw in
  let Rm := rowsub (tnth permute) Rm in
  data *m (H + Rm)^T.

Definition bootstrap_data_voxel (n : nat) (draw : n.-tuple 'I_n)
    (data : 'rV[R]_n) (H Rm : 'M[R]_n) (permute : option (n.-tuple 'I_n))
  : 'rV[R]_n :=
  let permute := if permute is Some p then p else draw in
  let r := data *m Rm^T in
  let boot_data := data *m H^T in
  boot_data + colsub (tnth permute) r.

Section Wrapper.

(** Acquisitions, diffusion-weighted acquisitions, and what the signal
    object is indexed by. *)
Variables (N nd : nat) (index_t : Type).

(** The arrays that exist, each at its position; a reference is that
    position.  Two names that hold the same reference share the array. *)
Definition heap : Type := seq 'rV[R]_N.

Definition load (h : heap) (r : nat) : 'rV[R]_N := nth 0 h r.

Definition store (h : heap) (r : nat) (v : 'rV[R]_N) : heap := set_nth 0 h r v.

Definition alloc (h : heap) (v : 'rV[R]_N) : nat * heap := (size h, rcons h v).

Record ResidualBootstrapWrapper : Type := mkResidualBootstrapWrapper {
  _signal_object : index_t -> nat;
  _H : 'M[R]_nd;
  _R : 'M[R]_nd;
  _min_signal : R;
  boot_where_dwi : nd.-tuple 'I_N
}.

Definition ResidualBootstrapWrapper_init (nc : nat)
    (signal_object : index_t -> nat) (B : 'M[R]_(nd, nc))
    (where_dwi : nd.-tuple 'I_N) (min_signal : R) : ResidualBootstrapWrapper :=
  {| _signal_object := signal_object;
     _H := hat B;
     _R := lcr_matrix (hat B);
     _min_signal := min_signal;
     boot_where_dwi := where_dwi |}.

(** [signal[where] = values]: the cells are written one after the other. *)
Definition setitem (signal : 'rV[R]_N) (where_ : nd.-tuple 'I_N)
    (values : 'rV[R]_nd) : 'rV[R]_N :=
  foldl (fun (s : 'rV[R]_N) j =>
           \row_k (if k == tnth where_ j then values 0 j else s 0 k))
        signal (enum 'I_nd).

(** [__getitem__]: [self._signal_object[index]] is a reference to the
    stored vector, [.copy()] allocates a new array, and the assignment
    [signal[self._where_dwi] = boot_signal] writes to the array [signal]
    refers to. *)
Definition ResidualBootstrapWrapper_getitem (self : ResidualBootstrapWrapper)
    (idx : index_t) (draw : nd.-tuple 'I_nd) (h : heap) : nat * heap :=
  let: (signal, h) := alloc h (load h (_signal_object self idx)) in
  let dwi_signal := colsub (tnth (boot_where_dwi self)) (load h signal) in
  let boot_signal :=
    bootstrap_data_voxel draw dwi_signal (_H self) (_R self) None in
  let boot_signal := map_mx (clip (_min_signal self) 1) boot_signal in
  let h :=
    store h signal (setitem (load h signal) (boot_where_dwi self) boot_signal) in
  (signal, h).

End Wrapper.

(* ---------------------------------------------------------------------- *)
(** ** sf_to_sh and sh_to_sf                                               *)
(* ---------------------------------------------------------------------- *)

(** The calls a transform makes, in the order it makes them. *)
Inductive op : Type :=
| OpIndList      (* sph_harm_ind_list(sh_order) *)
| OpBasis        (* sph_harm_basis(m, n, azi[:, None], pol[:, None]) *)
| OpSmoothPinv   (* smooth_pinv(B, sqrt(smooth)*L) *)
| OpZeros        (* np.zeros *)
| OpDot.         (* np.dot *)

(** A computation with the calls made so far and its outcome. *)
Definition traced (A : Type) : Type := (seq op * result A)%type.

Definition tret {A : Type} (a : A) : traced A := ([::], Ok a).

Definition traise {A : Type} (e : exn) : traced A := ([::], Raise e).

Definition call {A : Type} (o : op) (r : result A) : traced A := ([:: o], r).

Definition tbind {A B : Type} (c : traced A) (k : A -> traced B) : traced B :=
  match c with
  | (t, Ok a) => let: (t', r) := k a in (t ++ t', r)
  | (t, Raise e) => (t, Raise e)
  end.

Notation "x <-- c ;;; k" := (tbind c (fun x => k))
  (at level 100, c at next level, right associativity).

Record Sphere (q : nat) : Type := mkSphere {
  theta : 'rV[R]_q;
  phi : 'rV[R]_q
}.

Definition sf_to_sh (junk : nat -> Z) (V q : nat) (sf : 'M[R]_(V, q))
    (sphere : Sphere q) (sh_order : Z) (basis_type : option string)
    (smooth : R) : traced {k : nat & 'M[R]_(V, k)} :=
  mn <-- call OpIndList (sph_harm_ind_list junk sh_order) ;;;
  let: (m, n) := mn in
  let pol := theta sphere in
  let azi := phi sphere in
  match sph_harm_lookup basis_type with
  | None => traise (ValueError " Wrong basis type name ")
  | Some sph_harm_basis =>
      B <-- call OpBasis
              (if size m == size n
               then Ok (basis_matrix sph_harm_basis m n azi pol)
               else Raise (ValueError "shape mismatch")) ;;;
      let L := laplace_beltrami n (size m) in
      invB <-- call OpSmoothPinv (Ok (smooth_pinv B (sqrt smooth *: L))) ;;;
      let Rn := ((sh_order + 1) * (sh_order + 2) / 2)%Z in
      _ <-- call OpZeros
              (if (Rn <? 0)%Z
               then Raise (ValueError "negative dimensions are not allowed")
               else Ok tt) ;;;
      sh <-- call OpDot (Ok (sf *m invB^T)) ;;;
      tret (existT (fun k => 'M[R]_(V, k)) (size m) sh)
  end.

Definition sh_to_sf (junk : nat -> Z) (V k q : nat) (sh : 'M[R]_(V, k))
    (sphere : Sphere q) (sh_order : Z) (basis_type : option string)
  : traced 'M[R]_(V, q) :=
  mn <-- call OpIndList (sph_harm_ind_list junk sh_order) ;;;
  let: (m, n) := mn in
  let pol := theta sphere in
  let azi := phi sphere in
  match sph_harm_lookup basis_type with
  | None => traise (ValueError " Wrong basis type name ")
  | Some sph_harm_basis =>
      B <-- call OpBasis
              (if size m == size n
               then Ok (basis_matrix sph_harm_basis m n azi pol)
               else Raise (ValueError "shape mismatch")) ;;;
      _ <-- call OpZeros (Ok tt) ;;;
      call OpDot
        (match @eqP _ k (size m) with
         | ReflectT e => Ok (castmx (erefl V, e) sh *m B^T)
         | ReflectF _ => Raise (ValueError "shapes not aligned")
         end)
  end.

End Numeric.

(* ---------------------------------------------------------------------- *)
(** * The bootstrap routines over an arithmetic without laws               *)
(* ---------------------------------------------------------------------- *)

Section Arithmetic.

(** The carrier of the arrays with its zero, addition and product: for the
    running code binary64 with the IEEE operations, which are not
    associative and do not distribute. *)
Variable F : Type.
Variables (fzero : F) (fadd fmul : F -> F -> F).

(** [dot(A, M.T)]: entry (i, j) adds the products [A[i, k] * M[j, k]].
    The order in which [numpy.dot] adds them is not fixed by its
    interface; here they are added from the last to the first. *)
Definition dot_tr (V n p : nat) (A : 'M[F]_(V, n)) (M : 'M[F]_(p, n))
  : 'M[F]_(V, p) :=
  \matrix_(i, j) \big[fadd/fzero]_(k < n) fmul (A i k) (M j k).

Definition bootstrap_data_array_fl (V n : nat) (draw : n.-tuple 'I_n)
    (data : 'M[F]_(V, n)) (H Rm : 'M[F]_n) (permute : option (n.-tuple 'I_n))
  : 'M[F]_(V, n) :=
  let permute := if permute is Some p then p else draw in
  let Rm := rowsub (tnth permute) Rm in
  dot_tr data (\matrix_(i, j) fadd (H i j) (Rm i j)).

Definition bootstrap_data_voxel_fl (n : nat) (draw : n.-tuple 'I_n)
    (data : 'rV[F]_n) (H Rm : 'M[F]_n) (permute : option (n.-tuple 'I_n))
  : 'rV[F]_n :=
  let permute := if permute is Some p then p else draw in
  let r := dot_tr data Rm in
  let boot_data := dot_tr data H in
  \row_j fadd (boot_data ord0 j) (r ord0 (tnth permute j)).

End Arithmetic.

(* ---------------------------------------------------------------------- *)
(** * Notions used to state the properties                                 *)
(* ---------------------------------------------------------------------- *)

Section Notions.
Local Open Scope Z_scope.

(** The stretches the loop of [sph_harm_ind_list] writes to [m_list], one
    after the other, and the repetitions [repeat] makes for [n_list]. *)
Definition m_blocks (n_range : seq Z) : seq Z :=
  flatten [seq arange (- n) (n + 1) 1 | n <- n_range].

Definition n_blocks (n_range : seq Z) : seq Z :=
  flatten [seq nseq (Z.to_nat (n * 2 + 1)) n | n <- n_range].

(** The pairs (order, degree) for the degrees of [n_range]. *)
Definition index_pairs (n_range : seq Z) : seq (Z * Z) :=
  flatten [seq [seq (m, n) | m <- arange (- n) (n + 1) 1] | n <- n_range].

(** A pair (order, degree) comes before another: lower degree, or the same
    degree and lower order. *)
Definition index_lt (p q : Z * Z) : bool :=
  (p.2 <? q.2) || ((p.2 == q.2) && (p.1 <? q.1)).

(** A position of an array of length [len], counted from the start. *)
Definition in_range (len : nat) (p : Z) : bool :=
  (0 <=? p) && (p <? Z.of_nat len).

(** The [k] positions [a], [a + s], [a + 2 s], ... *)
Definition progression (a s : Z) (k : nat) : seq Z :=
  [seq a + s * Z.of_nat i | i <- iota 0 k].

End Notions.

(* ---------------------------------------------------------------------- *)
(** * Properties of sph_harm_ind_list *)
(* ---------------------------------------------------------------------- *)

Section IndexTheory.
Local Open Scope Z_scope.
Local Arguments Z.add : simpl never.
Local Arguments Z.sub : simpl never.
Local Arguments Z.mul : simpl never.
Local Arguments Z.opp : simpl never.
Local Arguments Z.div : simpl never.
Local Arguments Z.modulo : simpl never.
Local Arguments Z.of_nat : simpl never.
Local Arguments Z.to_nat : simpl never.

Lemma Z_eqE (x y : Z) : (x == y) = (x =? y).
Proof. by []. Qed.

Lemma size_arange start stop step :
  size (arange start stop step) = Z.to_nat (- ((start - stop) / step)).
Proof. by rewrite /arange size_map size_iota. Qed.

Lemma mem_arange start stop step x : 0 < step ->
  (x \in arange start stop step) <->
  (start <= x < stop /\ (x - start) mod step = 0).
Proof.
move=> Hs; split.
- case/mapP=> i; rewrite mem_iota add0n => /andP [_ /ssrnat.ltP Hi] ->.
  have Hq : Z.of_nat i < - ((start - stop) / step) by lia.
  split; last first.
    replace (start + step * Z.of_nat i - start) with (Z.of_nat i * step) by lia.
    by apply: Z.mod_mul; lia.
  split; first by nia.
  have := Z.mul_div_le (start - stop) step Hs.
  have := Z.mod_pos_bound (start - stop) step Hs.
  have := Z.div_mod (start - stop) step.
  nia.
- case=> Hx Hm.
  have H0 : 0 <= (x - start) / step by apply: Z.div_pos; lia.
  apply/mapP; exists (Z.to_nat ((x - start) / step)).
    rewrite mem_iota add0n /=; apply/ssrnat.ltP.
    apply/Z2Nat.inj_lt => //.
      have := Z.mod_pos_bound (start - stop) step Hs.
      have := Z.div_mod (start - stop) step.
      nia.
    have := Z.div_mod (x - start) step.
    have := Z.mod_pos_bound (start - stop) step Hs.
    have := Z.div_mod (start - stop) step.
    nia.
  rewrite Z2Nat.id //.
  have := Z.div_mod (x - start) step; lia.
Qed.

Lemma setslice_exact (pre v rest : seq Z) :
  (size v <= size rest)%N ->
  setslice (pre ++ rest) (Z.of_nat (size pre))
           (Z.of_nat (size pre) + Z.of_nat (size v)) v
  = Ok (pre ++ v ++ drop (size v) rest).
Proof.
move=> /ssrnat.leP Hle.
rewrite /setslice /slice_bound size_cat Nat2Z.inj_add.
have -> : (Z.of_nat (size pre) <? 0) = false by lia.
have -> : (Z.of_nat (size pre) + Z.of_nat (size v) <? 0) = false by lia.
have -> : Z.min (Z.of_nat (size pre)) (Z.of_nat (size pre) + Z.of_nat (size rest))
          = Z.of_nat (size pre) by lia.
have -> : Z.min (Z.of_nat (size pre) + Z.of_nat (size v))
                (Z.of_nat (size pre) + Z.of_nat (size rest))
          = Z.of_nat (size pre) + Z.of_nat (size v) by lia.
have -> : Z.to_nat (Z.of_nat (size pre) + Z.of_nat (size v) - Z.of_nat (size pre))
          = size v by lia.
rewrite Nat2Z.id eqxx take_size_cat // drop_cat.
have -> : (size pre + size v < size pre)%N = false.
  by apply/negbTE; rewrite -leqNgt leq_addr.
by rewrite addKn.
Qed.

Lemma size_arange_order n : size (arange (- n) (n + 1) 1) = Z.to_nat (n * 2 + 1).
Proof. by rewrite size_arange Z.div_1_r; congr Z.to_nat; lia. Qed.

Lemma size_m_blocks n_range :
  size (m_blocks n_range) = sumn [seq Z.to_nat (n * 2 + 1) | n <- n_range].
Proof.
rewrite /m_blocks size_flatten /shape -map_comp; congr sumn.
by apply: eq_map => n /=; rewrite size_arange_order.
Qed.

Lemma fill_m_list_blocks n_range : forall pre rest,
  all (Z.leb 0) n_range ->
  size rest = size (m_blocks n_range) ->
  fill_m_list n_range (pre ++ rest) (Z.of_nat (size pre))
  = Ok (pre ++ m_blocks n_range).
Proof.
elim: n_range => [|ii n_range IH] pre rest /=.
  by move=> _ /size0nil ->.
case/andP=> /Z.leb_le Hii Hpos.
rewrite /m_blocks /= size_cat -/(m_blocks n_range) => Hsz.
have -> : Z.of_nat (size pre) + 2 * ii + 1
          = Z.of_nat (size pre) + Z.of_nat (size (arange (- ii) (ii + 1) 1)).
  by rewrite size_arange_order; lia.
rewrite setslice_exact /=; first by rewrite Hsz leq_addr.
rewrite catA -Nat2Z.inj_add plusE -size_cat IH //; last by rewrite -catA.
by rewrite size_drop Hsz addKn.
Qed.

Lemma sumn_orders K :
  Z.of_nat (sumn [seq Z.to_nat ((0 + 2 * Z.of_nat i) * 2 + 1) | i <- iota 0 K])
  = Z.of_nat K * (2 * Z.of_nat K - 1).
Proof.
elim: K => [//|K IH].
rewrite -addn1 iotaD map_cat sumn_cat /= add0n addn0 -!plusE !Nat2Z.inj_add IH.
lia.
Qed.

Lemma size_m_blocks_order L : 0 <= L -> L mod 2 = 0 ->
  size (m_blocks (arange 0 (L + 1) 2)) = Z.to_nat ((L + 2) * (L + 1) / 2).
Proof.
move=> HL Hev.
have [q Hq] : exists q, L = 2 * q by exists (L / 2); have := Z.div_mod L 2; lia.
rewrite size_m_blocks /arange -map_comp.
apply: Nat2Z.inj; rewrite (@eq_map _ _ _ (fun i => Z.to_nat ((0 + 2 * Z.of_nat i) * 2 + 1))) //.
rewrite sumn_orders.
have -> : (0 - (L + 1)) / 2 = - q - 1.
  by symmetry; apply: (Z.div_unique _ _ _ 1); lia.
have -> : (L + 2) * (L + 1) / 2 = (q + 1) * (2 * q + 1).
  by symmetry; apply: (Z.div_unique _ _ _ 0); lia.
lia.
Qed.

Lemma arange_nonneg L : all (Z.leb 0) (arange 0 (L + 1) 2).
Proof.
by apply/allP=> n /(mem_arange _ _ _ Z.lt_0_2) [[H _] _]; apply/Z.leb_le.
Qed.

(** What [sph_harm_ind_list] returns for a valid order. *)
Lemma sph_harm_ind_list_blocks junk L : 0 <= L -> L mod 2 = 0 ->
  sph_harm_ind_list junk L
  = Ok (m_blocks (arange 0 (L + 1) 2), n_blocks (arange 0 (L + 1) 2)).
Proof.
move=> HL Hev; rewrite /sph_harm_ind_list Hev eqxx /= /repeat.
have -> : has (fun c => c <? 0) [seq n * 2 + 1 | n <- arange 0 (L + 1) 2] = false.
  apply/negbTE; rewrite -all_predC all_map; apply/allP=> n /=.
  by case/(mem_arange _ _ _ Z.lt_0_2)=> -[H _] _; apply/negP=> /Z.ltb_lt; lia.
rewrite /= /empty.
have -> : ((L + 2) * (L + 1) / 2 <? 0) = false.
  by apply/Z.ltb_ge/Z.div_pos; nia.
rewrite /= -[mkseq _ _]cat0s.
rewrite -[X in fill_m_list _ _ X]/(Z.of_nat (size (@nil Z))).
rewrite fill_m_list_blocks ?arange_nonneg //=;
  first by rewrite size_mkseq size_m_blocks_order.
congr (Ok (_, _)).
by rewrite /n_blocks -[X in zip X _]map_id zip_map -map_comp.
Qed.

Lemma zip_blocks n_range :
  zip (m_blocks n_range) (n_blocks n_range) = index_pairs n_range.
Proof.
elim: n_range => [//|n s IH].
rewrite /m_blocks /n_blocks /index_pairs /= zip_cat;
  first by rewrite size_nseq size_arange_order.
congr (_ ++ _); last exact: IH.
have := size_arange_order n.
elim: (arange _ _ _) (Z.to_nat _) => [|m ms IHm] [|k] //= [Hk].
by rewrite IHm.
Qed.

Lemma size_n_blocks n_range : size (n_blocks n_range) = size (m_blocks n_range).
Proof.
rewrite size_m_blocks /n_blocks size_flatten /shape -map_comp; congr sumn.
by apply: eq_map => n /=; rewrite size_nseq.
Qed.

Lemma mem_index_pairs n_range m n :
  ((m, n) \in index_pairs n_range) <->
  (n \in n_range /\ - n <= m <= n).
Proof.
split.
- case/flatten_mapP=> n' Hn' /mapP [m' Hm' [-> ->]]; split=> //.
  by move/(mem_arange _ _ _ Z.lt_0_1): Hm' => [H _]; lia.
- case=> Hn Hm; apply/flatten_mapP; exists n => //.
  apply/mapP; exists m => //; apply/(mem_arange _ _ _ Z.lt_0_1).
  by split; [lia | rewrite Z.mod_1_r].
Qed.

Lemma pairwise_iota (r : rel nat) a k :
  (forall i j, (i < j)%N -> r i j) -> pairwise r (iota a k).
Proof.
move=> Hr; elim: k a => [//|k IH] a /=; rewrite IH andbT.
by apply/allP=> j; rewrite mem_iota => /andP [Hj _]; apply: Hr.
Qed.

Lemma pairwise_arange (r : rel Z) start stop step :
  (forall i j, (i < j)%N ->
     r (start + step * Z.of_nat i) (start + step * Z.of_nat j)) ->
  pairwise r (arange start stop step).
Proof. by move=> Hr; rewrite /arange pairwise_map; apply: pairwise_iota. Qed.

Lemma pairwise_index_pairs n_range :
  pairwise Z.ltb n_range -> pairwise index_lt (index_pairs n_range).
Proof.
elim: n_range => [//|n s IH] /= /andP [Hn Hs].
rewrite /index_pairs /= -/(index_pairs s) pairwise_cat IH // andbT.
apply/andP; split.
- apply/allrelP=> p q /mapP [m _ ->] /flattenP [blk /mapP [n' Hn' ->]].
  case/mapP=> m' _ ->; rewrite /index_lt /=.
  by move/allP: Hn => /(_ _ Hn') ->.
- rewrite pairwise_map; apply: pairwise_arange => i j /ssrnat.ltP Hij.
  rewrite /index_lt /= eqxx /=; apply/orP; right.
  by apply/Z.ltb_lt; lia.
Qed.

Lemma pairwise_arange_lt stop : pairwise Z.ltb (arange 0 stop 2).
Proof.
by apply: pairwise_arange => i j /ssrnat.ltP Hij; apply/Z.ltb_lt; lia.
Qed.

(** Claim C1.  For every even L >= 0, [sph_harm_ind_list L] returns two parallel
    arrays of length (L+1)(L+2)/2 whose pairs (m, n) are exactly the pairs
    with n even, 0 <= n <= L and |m| <= n, listed by increasing degree n
    and, within a degree, by increasing order m. *)
Theorem sph_harm_ind_list_spec (junk : nat -> Z) (L : Z) :
  0 <= L -> L mod 2 = 0 ->
  exists m_list n_list : seq Z,
    [/\ sph_harm_ind_list junk L = Ok (m_list, n_list),
        Z.of_nat (size m_list) = (L + 1) * (L + 2) / 2
        /\ Z.of_nat (size n_list) = (L + 1) * (L + 2) / 2,
        forall m n : Z,
          (m, n) \in zip m_list n_list <->
          (0 <= n <= L /\ n mod 2 = 0 /\ Z.abs m <= n)
      & pairwise index_lt (zip m_list n_list)].
Proof.
move=> HL Hev.
exists (m_blocks (arange 0 (L + 1) 2)), (n_blocks (arange 0 (L + 1) 2)).
split; first exact: sph_harm_ind_list_blocks.
- have Hpos : 0 <= (L + 2) * (L + 1) / 2 by apply: Z.div_pos; nia.
  rewrite size_n_blocks size_m_blocks_order // Z2Nat.id //.
  by rewrite [(L + 2) * _]Z.mul_comm.
- move=> m n; rewrite zip_blocks; split.
    case/mem_index_pairs=> /(mem_arange _ _ _ Z.lt_0_2) [Hn Hm] Hmn.
    by rewrite Z.sub_0_r in Hm; lia.
  case=> Hn [Hm Hmn]; apply/mem_index_pairs; split; last by lia.
  by apply/(mem_arange _ _ _ Z.lt_0_2); rewrite Z.sub_0_r; lia.
- by rewrite zip_blocks; apply/pairwise_index_pairs/pairwise_arange_lt.
Qed.

Lemma sph_harm_ind_list_spec_witness :
  exists m_list n_list : seq Z,
    [/\ sph_harm_ind_list (fun _ => 0) 4 = Ok (m_list, n_list),
        Z.of_nat (size m_list) = (4 + 1) * (4 + 2) / 2
        /\ Z.of_nat (size n_list) = (4 + 1) * (4 + 2) / 2,
        forall m n : Z,
          (m, n) \in zip m_list n_list <->
          (0 <= n <= 4 /\ n mod 2 = 0 /\ Z.abs m <= n)
      & pairwise index_lt (zip m_list n_list)].
Proof. by apply: (sph_harm_ind_list_spec (fun _ => 0) (L := 4)). Defined.

(** An odd order is refused, whatever its sign. *)
Theorem sph_harm_ind_list_odd (junk : nat -> Z) (sh_order : Z) :
  sh_order mod 2 <> 0 ->
  sph_harm_ind_list junk sh_order
  = Raise (ValueError "sh_order must be an even integer >= 0").
Proof. by rewrite /sph_harm_ind_list => /eqP /negbTE ->. Qed.

Lemma sph_harm_ind_list_odd_witness :
  sph_harm_ind_list (fun _ => 0) (-3)
  = Raise (ValueError "sh_order must be an even integer >= 0").
Proof. by apply: sph_harm_ind_list_odd. Defined.

(** A negative even order is not refused: the degree range is empty, the
    loop does not run, and the function returns the uninitialised order
    array and an empty degree array. *)
Theorem sph_harm_ind_list_negative_even (junk : nat -> Z) (sh_order : Z) :
  sh_order < 0 -> sh_order mod 2 = 0 ->
  sph_harm_ind_list junk sh_order
  = Ok (mkseq junk (Z.to_nat ((sh_order + 2) * (sh_order + 1) / 2)), [::]).
Proof.
move=> Hneg Hev; rewrite /sph_harm_ind_list Hev eqxx /=.
have -> : arange 0 (sh_order + 1) 2 = [::].
  rewrite /arange; have -> // : Z.to_nat (- ((0 - (sh_order + 1)) / 2)) = 0%N.
  have : 0 <= (0 - (sh_order + 1)) / 2 by apply: Z.div_pos; lia.
  by lia.
rewrite /= /empty.
have -> // : ((sh_order + 2) * (sh_order + 1) / 2 <? 0) = false.
apply/Z.ltb_ge/Z.div_pos; last by [].
have [-> //|Hle] : sh_order = -1 \/ sh_order <= -2 by lia.
by nia.
Qed.

Lemma sph_harm_ind_list_negative_even_witness :
  sph_harm_ind_list (fun _ => 7) (-4) = Ok ([:: 7; 7; 7], [::]).
Proof. by apply: (@sph_harm_ind_list_negative_even (fun _ => 7) (-4)). Defined.

(** Claim C2, the failing input.  The order -2 is negative, and the call
    returns a pair of empty arrays where the claim, and the message of the
    error the function raises for an odd order, have it raise. *)
Theorem sph_harm_ind_list_minus_two (junk : nat -> Z) :
  sph_harm_ind_list junk (-2) = Ok ([::], [::]).
Proof. by []. Qed.

End IndexTheory.

(* ---------------------------------------------------------------------- *)
(** * Properties of lazy_index *)
(* ---------------------------------------------------------------------- *)

Section LazyIndexTheory.
Local Open Scope Z_scope.
Local Arguments Z.add : simpl never.
Local Arguments Z.sub : simpl never.
Local Arguments Z.mul : simpl never.
Local Arguments Z.opp : simpl never.
Local Arguments Z.div : simpl never.
Local Arguments Z.of_nat : simpl never.
Local Arguments Z.to_nat : simpl never.
Local Arguments Z.min : simpl never.
Local Arguments Z.max : simpl never.

(** Claim C10, the failing input.  For the positions 2, 1, 0 [lazy_index] returns
    the slice 2:1:-1, which selects the one element at position 2, while
    the positions themselves select three elements. *)
Theorem lazy_index_descending :
  [/\ lazy_index (IntIndex [:: 2; 1; 0]) = Slice 2 1 (Some (-1)),
      getitem_lazy 0 [:: 10; 11; 12] (lazy_index (IntIndex [:: 2; 1; 0]))
      = Ok [:: 12]
    & getitem_index 0 [:: 10; 11; 12] (IntIndex [:: 2; 1; 0])
      = Ok [:: 12; 11; 10]].
Proof. by split; vm_compute. Qed.

(** A single negative position is turned into an empty slice. *)
Lemma lazy_index_negative :
  [/\ lazy_index (IntIndex [:: -1]) = Slice (-1) 0 None,
      getitem_lazy 0 [:: 10; 11; 12] (lazy_index (IntIndex [:: -1])) = Ok [::]
    & getitem_index 0 [:: 10; 11; 12] (IntIndex [:: -1]) = Ok [:: 12]].
Proof. by split; vm_compute. Qed.

Variable T : Type.
Variable x0 : T.

Lemma getitem_ints_in_range (A : seq T) (pos : seq Z) :
  all (in_range (size A)) pos ->
  getitem_ints x0 A pos = Ok [seq nth x0 A (Z.to_nat p) | p <- pos].
Proof.
elim: pos => [|p pos IH] //= /andP [/andP [/Z.leb_le H0 /Z.ltb_lt H1] Hall].
rewrite IH //=.
have -> : (p <? - Z.of_nat (size A)) = false by lia.
have -> : (Z.of_nat (size A) <=? p) = false by lia.
by have -> : (p <? 0) = false by lia.
Qed.

Lemma progression_cons (a s : Z) (k : nat) :
  progression a s k.+1 = a :: progression (a + s) s k.
Proof.
rewrite /progression -[k.+1]/(1 + k)%N -[iota 0 (1 + k)]/(0%N :: iota 1 k).
rewrite -[1%N]/(1 + 0)%N iotaDl [map _ (_ :: _)]/= -map_comp.
congr cons; first by lia.
by apply: eq_map => i /=; rewrite add1n Nat2Z.inj_succ; lia.
Qed.

Lemma arange_progression (a s : Z) (k : nat) :
  0 < s -> (0 < k)%N ->
  arange a (a + s * Z.of_nat k.-1 + 1) s = progression a s k.
Proof.
move=> Hs /ssrnat.ltP Hk; rewrite /arange /progression.
have <- : - Z.of_nat k.-1 - 1 = (a - (a + s * Z.of_nat k.-1 + 1)) / s.
  by apply: (Z.div_unique_pos _ _ _ (s - 1)); lia.
by have -> : Z.to_nat (- (- Z.of_nat k.-1 - 1)) = k by lia.
Qed.

Lemma getitem_slice_progression (A : seq T) (a s : Z) (k : nat)
    (step : option Z) :
  s = (if step is Some s' then s' else 1) ->
  0 < s -> (0 < k)%N -> 0 <= a ->
  a + s * Z.of_nat k.-1 < Z.of_nat (size A) ->
  getitem_slice x0 A a (a + s * Z.of_nat k.-1 + 1) step
  = Ok [seq nth x0 A (Z.to_nat p) | p <- progression a s k].
Proof.
move=> Hstep Hs Hk Ha Hlast; rewrite /getitem_slice -Hstep.
have Hp : 0 <= s * Z.of_nat k.-1 by nia.
have -> : (s == 0) = false by rewrite Z_eqE; lia.
have -> : (0 <? s) = true by lia.
rewrite /slice_bound.
have -> : (a <? 0) = false by lia.
have -> : (a + s * Z.of_nat k.-1 + 1 <? 0) = false by lia.
have -> : Z.min a (Z.of_nat (size A)) = a by lia.
have -> : Z.min (a + s * Z.of_nat k.-1 + 1) (Z.of_nat (size A))
          = a + s * Z.of_nat k.-1 + 1 by lia.
by rewrite arange_progression.
Qed.

Lemma diff_progression (s : Z) (pos : seq Z) :
  all (fun d => d == s) (diff pos) ->
  pos = progression (head 0 pos) s (size pos).
Proof.
elim: pos => [|x pos IH] //.
rewrite [size _]/= progression_cons [head _ _]/=.
case: pos IH => [|y pos] IH //.
rewrite [diff _]/= => /andP [/eqP Hd Hall].
rewrite {1}(IH Hall) [head _ _]/=.
by have -> : x + s = y by lia.
Qed.

Lemma unique_single (d : seq Z) (s : Z) :
  unique d = [:: s] -> all (fun x => x == s) d.
Proof.
move=> H; apply/allP=> x Hx.
have : x \in unique d by rewrite /unique mem_sort mem_undup.
by rewrite H mem_seq1.
Qed.

Lemma last_progression (a s : Z) (k : nat) :
  last 0 (progression a s k.+1) = a + s * Z.of_nat k.
Proof.
by rewrite /progression -[k.+1]/(1 + k)%N addnC iotaD map_cat last_cat /= add0n.
Qed.

(** On positions that are in range and ascending the slice made by
    [lazy_index] selects what the positions select. *)
Lemma lazy_index_ascending (A : seq T) (pos : seq Z) :
  all (in_range (size A)) pos -> sorted Z.leb pos ->
  getitem_lazy x0 A (lazy_index (IntIndex pos)) = getitem_ints x0 A pos.
Proof.
move=> Hr Hs; rewrite getitem_ints_in_range // /lazy_index.
case: ifP => [/eqP Hsz|Hsz].
  case: pos Hsz Hr Hs => [|a [|? ?]] //= _ /andP [/andP [/Z.leb_le Ha0 /Z.ltb_lt Ha1] _] _.
  have E : getitem_slice x0 A a (a + 1 * Z.of_nat 0 + 1) None
           = Ok [seq nth x0 A (Z.to_nat p) | p <- progression a 1 1].
    by apply: (@getitem_slice_progression A a 1 1 None) => //; lia.
  have Ea : a + 1 * Z.of_nat 0 + 1 = a + 1 by lia.
  rewrite Ea in E; rewrite E /progression /=.
  by congr (Ok [:: nth x0 A (Z.to_nat _)]); lia.
case: ifP => [_|/negbT]; first by rewrite /= getitem_ints_in_range.
rewrite negb_or negbK => /andP [/eqP Hsz1 Hs0].
case Hu: (unique (diff pos)) Hsz1 Hs0 => [|s [|? ?]] //= _ Hs0.
have Hd := unique_single Hu.
have Hprog := diff_progression Hd.
case: pos Hsz Hr Hs Hu Hd Hprog => [|a [|b pos]] // _ Hr Hs Hu Hd Hprog.
have Hspos : 0 < s.
  have Hs0' : s <> 0 by move/negbTE: Hs0; rewrite Z_eqE => /Z.eqb_neq.
  by move: Hd Hs => /= /andP [/eqP Hba _] /andP [/Z.leb_le Hab _]; lia.
have Hlast : last 0 [:: a, b & pos] = a + s * Z.of_nat (size pos).+1.
  by rewrite [in LHS]Hprog last_progression.
have Hin : in_range (size A) (last 0 [:: a, b & pos]).
  by move/allP: Hr; apply; rewrite -[last 0 _]/(last a (b :: pos)) mem_last.
move: Hin; rewrite Hlast => /andP [_ /Z.ltb_lt Hlt].
have /andP [/andP [/Z.leb_le Ha0 _] _] := Hr.
rewrite [head _ _]/=.
rewrite (@getitem_slice_progression A a s (size pos).+2 (Some s)) //.
by rewrite [in RHS]Hprog.
Qed.

Lemma nonzero_from_path (bs : seq bool) (k x : Z) :
  x <= k -> path Z.leb x (nonzero_from k bs).
Proof.
elim: bs k x => [|b bs IH] k x Hx //=.
case: b => /=; last by apply: IH; lia.
have -> : path Z.leb k (nonzero_from (k + 1) bs) by apply: IH; lia.
by rewrite andbT; apply/Z.leb_le.
Qed.

Lemma nonzero_from_in_range (bs : seq bool) (k : Z) (n : nat) :
  0 <= k -> k + Z.of_nat (size bs) <= Z.of_nat n ->
  all (in_range n) (nonzero_from k bs).
Proof.
elim: bs k => [|b bs IH] k Hk //= Hn.
have Hrest : all (in_range n) (nonzero_from (k + 1) bs) by apply: IH; lia.
case: b => //=; rewrite Hrest andbT /in_range.
by apply/andP; split; [apply/Z.leb_le | apply/Z.ltb_lt]; lia.
Qed.

Lemma nonzero_from_mask (A : seq T) (bs : seq bool) (k : nat) :
  (k + size bs <= size A)%N ->
  [seq nth x0 A (Z.to_nat p) | p <- nonzero_from (Z.of_nat k) bs]
  = mask bs (drop k A).
Proof.
elim: bs k => [|b bs IH] k //.
rewrite /= addnS => Hk.
have Hlt : (k < size A)%N by apply: leq_trans Hk; rewrite ltnS leq_addr.
have -> : Z.of_nat k + 1 = Z.of_nat k.+1 by lia.
rewrite (drop_nth x0 Hlt) /= -IH //.
by case: b => //=; rewrite Nat2Z.id.
Qed.

(** A boolean mask of the length of the array: what [lazy_index] returns
    for it selects the elements the mask selects, in their order. *)
Theorem lazy_index_mask (A : seq T) (bs : seq bool) :
  size bs = size A ->
  getitem_lazy x0 A (lazy_index (BoolIndex bs))
  = getitem_index x0 A (BoolIndex bs).
Proof.
move=> Hsz.
have -> : lazy_index (BoolIndex bs) = lazy_index (IntIndex (nonzero bs)) by [].
have Hr : all (in_range (size A)) (nonzero bs).
  by apply: nonzero_from_in_range; rewrite ?Hsz; lia.
have Hs : sorted Z.leb (nonzero bs).
  by apply: (@path_sorted _ _ (-1)); apply: nonzero_from_path.
rewrite (lazy_index_ascending Hr Hs) (getitem_ints_in_range Hr).
rewrite /getitem_index /getitem_mask Hsz eqxx /=.
have := @nonzero_from_mask A bs 0; rewrite drop0 add0n Hsz => -> //.
Qed.

(** Integer positions that are in range and ascending: the same. *)
Theorem lazy_index_positions (A : seq T) (pos : seq Z) :
  all (in_range (size A)) pos -> sorted Z.leb pos ->
  getitem_lazy x0 A (lazy_index (IntIndex pos))
  = getitem_index x0 A (IntIndex pos).
Proof. exact: lazy_index_ascending. Qed.

End LazyIndexTheory.

Lemma lazy_index_mask_witness :
  getitem_lazy 0%Z [:: 10; 11; 12; 13; 14]%Z
    (lazy_index (BoolIndex [:: true; false; true; false; true]))
  = getitem_index 0%Z [:: 10; 11; 12; 13; 14]%Z
      (BoolIndex [:: true; false; true; false; true]).
Proof. by apply: lazy_index_mask. Defined.

Lemma lazy_index_positions_witness :
  getitem_lazy 0%Z [:: 10; 11; 12; 13; 14]%Z
    (lazy_index (IntIndex [:: 1; 2; 3]%Z))
  = getitem_index 0%Z [:: 10; 11; 12; 13; 14]%Z (IntIndex [:: 1; 2; 3]%Z).
Proof. by apply: lazy_index_positions. Defined.

(* ---------------------------------------------------------------------- *)
(** * Properties of smooth_pinv *)
(* ---------------------------------------------------------------------- *)

Section PinvTheory.
Local Open Scope ring_scope.

Variable R : realFieldType.

(** The Moore-Penrose pseudo-inverse of a matrix is unique. *)
Lemma is_pinv_unique (p q : nat) (A : 'M[R]_(p, q)) (X Y : 'M[R]_(q, p)) :
  is_pinv A X -> is_pinv A Y -> X = Y.
Proof.
case=> AXA XAX AXt XAt [AYA YAY AYt YAt].
have E1 : A *m X = A *m Y.
  have H : (A *m X *m (A *m Y))^T = (A *m Y)^T by rewrite mulmxA AXA.
  by move: H; rewrite trmx_mul AYt AXt mulmxA AYA.
have E2 : X *m A = Y *m A.
  have H : (Y *m A *m (X *m A))^T = (Y *m A)^T.
    by rewrite -mulmxA (mulmxA A X A) AXA.
  by move: H; rewrite trmx_mul XAt YAt -mulmxA (mulmxA A Y A) AYA.
by rewrite -XAX -mulmxA E1 mulmxA E2 YAY.
Qed.

(** Stacking a zero block under [B] pads the pseudo-inverse with a zero
    block on the right. *)
Lemma is_pinv_col_mx0 (n m k : nat) (B : 'M[R]_(n, m)) (P : 'M[R]_(m, n)) :
  is_pinv B P ->
  is_pinv (col_mx B (0 : 'M_(k, m))) (row_mx P (0 : 'M_(m, k))).
Proof.
case=> BPB PBP BPt PBt.
have XA : row_mx P (0 : 'M_(m, k)) *m col_mx B (0 : 'M_(k, m)) = P *m B.
  by rewrite mul_row_col mulmx0 addr0.
split.
- by rewrite -mulmxA XA mul_col_mx mulmxA BPB mul0mx.
- by rewrite XA mul_mx_row PBP mulmx0.
- by rewrite mul_col_row !mulmx0 !mul0mx tr_block_mx BPt !trmx0.
- by rewrite XA.
Qed.

(** A matrix with orthonormal columns has its transpose as
    pseudo-inverse. *)
Lemma is_pinv_trmx (p q : nat) (A : 'M[R]_(p, q)) :
  A^T *m A = 1%:M -> is_pinv A A^T.
Proof.
move=> AtA; split.
- by rewrite -mulmxA AtA mulmx1.
- by rewrite AtA mul1mx.
- by rewrite trmx_mul trmxK.
- by rewrite trmx_mul trmxK.
Qed.

Variable pinv : forall p q : nat, 'M[R]_(p, q) -> 'M[R]_(q, p).

Lemma smooth_pinvE (n m : nat) (B : 'M[R]_(n, m)) (L : 'rV[R]_m) :
  smooth_pinv pinv B L = lsubmx (pinv (col_mx B (diag_mx L))).
Proof. by []. Qed.

Lemma diag_mx0 (m : nat) : diag_mx (0 : 'rV[R]_m) = 0.
Proof. exact: raddf0. Qed.

(** Claim C3.  [smooth_pinv B L] is the block of the first rows(B) columns of
    the pseudo-inverse of [B] stacked on [diag L], a matrix of shape
    columns(B) x rows(B); when the weights [L] are all zero it is the
    Moore-Penrose pseudo-inverse of [B]. *)
Theorem smooth_pinv_zero (n m : nat) (B : 'M[R]_(n, m)) :
  is_pinv B (pinv B) ->
  is_pinv (col_mx B (diag_mx 0)) (pinv (col_mx B (diag_mx 0))) ->
  (forall L : 'rV[R]_m,
     smooth_pinv pinv B L = lsubmx (pinv (col_mx B (diag_mx L)))
     /\ forall (i : 'I_m) (j : 'I_n),
          smooth_pinv pinv B L i j
          = pinv (col_mx B (diag_mx L)) i (lshift m j))
  /\ smooth_pinv pinv B 0 = pinv B.
Proof.
move=> HB HA; split; first by move=> L; split=> // i j; rewrite !mxE.
rewrite smooth_pinvE.
have /(is_pinv_col_mx0 m) HX := HB.
rewrite diag_mx0 in HA *.
by rewrite (is_pinv_unique HA HX) row_mxKl.
Qed.

End PinvTheory.

Lemma smooth_pinv_zero_witness :
  let pinv := fun (p q : nat) (A : 'M[rat]_(p, q)) => A^T%R in
  let B : 'M[rat]_2 := 1%:M%R in
  (forall L : 'rV[rat]_2,
     smooth_pinv pinv B L = lsubmx (pinv _ _ (col_mx B (diag_mx L)))
     /\ forall (i : 'I_2) (j : 'I_2),
          smooth_pinv pinv B L i j
          = pinv _ _ (col_mx B (diag_mx L)) i (lshift 2 j))
  /\ smooth_pinv pinv B 0%R = pinv _ _ B.
Proof.
apply: (@smooth_pinv_zero _ (fun p q A => A^T%R) 2 2 1%:M%R).
  by apply: is_pinv_trmx; rewrite trmx1 mulmx1.
apply: is_pinv_trmx.
by rewrite diag_mx0 tr_col_mx mul_row_col trmx1 mulmx1 trmx0 mulmx0 addr0.
Defined.

(* ---------------------------------------------------------------------- *)
(** * The coefficient formulas of the models *)
(* ---------------------------------------------------------------------- *)

Section ModelTheory.
Local Open Scope ring_scope.

Variable R : realFieldType.
Variables sqrt log : R -> R.
Variable pinv : forall p q : nat, 'M[R]_(p, q) -> 'M[R]_(q, p).

Lemma clip_bounds (lo hi x : R) :
  lo <= hi -> lo <= clip lo hi x <= hi.
Proof.
by move=> lohi; rewrite /clip le_min le_max lexx orbT lohi ge_min lexx orbT.
Qed.

Lemma clip_le_hi (lo hi x : R) : clip lo hi x <= hi.
Proof. by rewrite /clip ge_min lexx orbT. Qed.

Lemma CsaOdfModel_min_gt0 : 0 < CsaOdfModel_min R.
Proof. by rewrite /CsaOdfModel_min divr_gt0 ?ltr01 ?ltr0n. Qed.

Lemma CsaOdfModel_max_lt1 : CsaOdfModel_max R < 1.
Proof.
by rewrite /CsaOdfModel_max ltr_pdivrMr ?ltr0n // mul1r ltr_nat.
Qed.

Lemma CsaOdfModel_min_max : CsaOdfModel_min R <= CsaOdfModel_max R.
Proof.
by rewrite /CsaOdfModel_min /CsaOdfModel_max ler_pM2r ?invr_gt0 ?ltr0n // ler1n.
Qed.

(** Scaling row [k] of [A] by [F k * L k] is the product with the two
    diagonal matrices. *)
Lemma scale_rowsE (nc nd : nat) (F L : 'rV[R]_nc) (A : 'M[R]_(nc, nd)) :
  \matrix_(k, j) (F 0 k * L 0 k * A k j) = diag_mx F *m diag_mx L *m A.
Proof.
by rewrite -mulmxA !mul_diag_mx; apply/matrixP=> k j; rewrite !mxE mulrA.
Qed.

Variables N nd nc V : nat.

(** Claim C4.  The CSA coefficients are log(-log(s)) of the diffusion-weighted
    signal [s] clipped to [0.001, 0.999], times the transpose of the fit
    matrix F*L*invB, where invB is the regularised inverse of B with the
    weights sqrt(smooth)*L.  Clipping comes first, so each logarithm is
    taken of a positive number. *)
Theorem CsaOdfModel_coefficients
    (B : 'M[R]_(nd, nc)) (L F : 'rV[R]_nc) (smooth : R)
    (where_dwi : nd.-tuple 'I_N) (data : 'M[R]_(V, N)) :
  (forall x : R, 0 < x -> x < 1 -> log x < 0) ->
  let invB := smooth_pinv pinv B (sqrt smooth *: L) in
  let fit_matrix := CsaOdfModel_set_fit_matrix sqrt pinv B L F smooth in
  let clipped : 'M[R]_(V, nd) :=
    \matrix_(i, j) clip (1 / 1000%:R) (999%:R / 1000%:R)
                     (data i (tnth where_dwi j)) in
  [/\ fit_matrix = diag_mx F *m diag_mx L *m invB,
      CsaOdfModel_get_shm_coef log fit_matrix where_dwi data
      = map_mx (fun x => log (- log x)) clipped *m fit_matrix^T,
      forall (i : 'I_V) (k : 'I_nc),
        CsaOdfModel_get_shm_coef log fit_matrix where_dwi data i k
        = \sum_j log (- log (clipped i j)) * (F 0 k * L 0 k * invB k j)
    & forall (i : 'I_V) (j : 'I_nd),
        [/\ 1 / 1000%:R <= clipped i j <= 999%:R / 1000%:R,
            0 < clipped i j & 0 < - log (clipped i j)]].
Proof.
move=> log_neg invB fit_matrix clipped.
have clippedE : map_mx (clip (CsaOdfModel_min R) (CsaOdfModel_max R))
                  (colsub (tnth where_dwi) data) = clipped.
  by apply/matrixP=> i j; rewrite !mxE.
have bounds i j : 1 / 1000%:R <= clipped i j <= 999%:R / 1000%:R.
  by rewrite mxE; apply: clip_bounds; apply: CsaOdfModel_min_max.
split.
- exact: scale_rowsE.
- by rewrite /CsaOdfModel_get_shm_coef clippedE.
- move=> i k; rewrite /CsaOdfModel_get_shm_coef clippedE mxE.
  by apply: eq_bigr => j _; rewrite !mxE.
- move=> i j; have /andP [lo hi] := bounds i j.
  have pos : 0 < clipped i j by apply: lt_le_trans lo; apply: CsaOdfModel_min_gt0.
  split=> //.
  rewrite oppr_gt0; apply: log_neg => //.
  by apply: le_lt_trans hi _; apply: CsaOdfModel_max_lt1.
Qed.

(** Claim C5.  The OPDT fit matrix is the pair delta_b = F*L*invB and
    delta_q = 4*F*invB, both built from the one regularised inverse invB
    of B with the weights sqrt(smooth)*L, and the coefficients are
    (logd*(1.5 - logd)*s) . delta_q^T - s . delta_b^T with logd = -log(s)
    for the diffusion-weighted signal [s]. *)
Theorem OpdtModel_coefficients
    (B : 'M[R]_(nd, nc)) (L F : 'rV[R]_nc) (smooth : R)
    (where_dwi : nd.-tuple 'I_N) (data : 'M[R]_(V, N)) :
  let invB := smooth_pinv pinv B (sqrt smooth *: L) in
  let fit_matrix := OpdtModel_set_fit_matrix sqrt pinv B L F smooth in
  let delta_b := fit_matrix.1 in
  let delta_q := fit_matrix.2 in
  let signal : 'M[R]_(V, nd) := \matrix_(i, j) data i (tnth where_dwi j) in
  let logd : 'M[R]_(V, nd) := \matrix_(i, j) (- log (signal i j)) in
  [/\ delta_b = diag_mx F *m diag_mx L *m invB,
      delta_q = 4%:R *: (diag_mx F *m invB)
    & OpdtModel_get_shm_coef log fit_matrix where_dwi data
      = (\matrix_(i, j) (logd i j * (3%:R / 2%:R - logd i j) * signal i j))
          *m delta_q^T
        - signal *m delta_b^T].
Proof.
move=> invB fit_matrix delta_b delta_q signal logd.
have signalE : colsub (tnth where_dwi) data = signal.
  by apply/matrixP=> i j; rewrite !mxE.
split.
- exact: scale_rowsE.
- rewrite /delta_q /fit_matrix /OpdtModel_set_fit_matrix /= mul_diag_mx.
  by apply/matrixP=> k j; rewrite !mxE mulrA.
- rewrite /OpdtModel_get_shm_coef /= /_slowadc_formula signalE.
  congr (_ *m _ - _); apply/matrixP=> i j.
  by rewrite !mxE.
Qed.

End ModelTheory.

Lemma CsaOdfModel_coefficients_witness :
  let log := fun x : rat => (x - 1)%R in
  let pinv := fun (p q : nat) (A : 'M[rat]_(p, q)) => A^T%R in
  let B : 'M[rat]_1 := 1%:M%R in
  let L : 'rV[rat]_1 := 0%R in
  let F : 'rV[rat]_1 := 1%:M%R in
  let where_dwi : 1.-tuple 'I_2 := [tuple ord_max] in
  let data : 'M[rat]_(1, 2) := const_mx 1%R in
  let invB := smooth_pinv pinv B (id 0 *: L)%R in
  let fit_matrix := CsaOdfModel_set_fit_matrix id pinv B L F 0%R in
  let clipped : 'M[rat]_(1, 1) :=
    (\matrix_(i, j) clip (1 / 1000%:R) (999%:R / 1000%:R)
                     (data i (tnth where_dwi j)))%R in
  [/\ fit_matrix = (diag_mx F *m diag_mx L *m invB)%R,
      CsaOdfModel_get_shm_coef log fit_matrix where_dwi data
      = (map_mx (fun x => log (- log x)) clipped *m fit_matrix^T)%R,
      forall (i : 'I_1) (k : 'I_1),
        CsaOdfModel_get_shm_coef log fit_matrix where_dwi data i k
        = (\sum_j log (- log (clipped i j)) * (F 0 k * L 0 k * invB k j))%R
    & forall (i : 'I_1) (j : 'I_1),
        [/\ (1 / 1000%:R <= clipped i j <= 999%:R / 1000%:R)%R,
            (0 < clipped i j)%R & (0 < - log (clipped i j))%R]].
Proof.
apply: (@CsaOdfModel_coefficients _ id (fun x : rat => (x - 1)%R)
          (fun p q A => A^T%R) 2 1 1 1).
by move=> x _ x1; rewrite subr_lt0.
Defined.

(* ---------------------------------------------------------------------- *)
(** * Residual bootstrap *)
(* ---------------------------------------------------------------------- *)

Section BootstrapTheory.
Local Open Scope ring_scope.

Variable R : realFieldType.

Lemma mulmx_colsub (p n k : nat) (f : 'I_k -> 'I_n)
    (A : 'M[R]_(p, n)) (M : 'M[R]_n) :
  colsub f (A *m M^T) = A *m (rowsub f M)^T.
Proof.
apply/matrixP=> i j; rewrite !mxE.
by apply: eq_bigr => l _; rewrite !mxE.
Qed.

Lemma bootstrap_data_voxelE (n : nat) (draw : n.-tuple 'I_n)
    (data : 'rV[R]_n) (H Rm : 'M[R]_n) (permute : n.-tuple 'I_n) :
  bootstrap_data_voxel draw data H Rm (Some permute)
  = data *m (H + rowsub (tnth permute) Rm)^T.
Proof.
by rewrite /bootstrap_data_voxel mulmx_colsub -mulmxDr -linearD.
Qed.

Lemma rowsub_ord_tuple (n : nat) (M : 'M[R]_n) :
  rowsub (tnth (ord_tuple n)) M = M.
Proof. by apply/matrixP=> i j; rewrite !mxE tnth_ord_tuple. Qed.

(** Over a real field the second reading of the two routines is the
    first. *)
Lemma dot_trE (V n p : nat) (A : 'M[R]_(V, n)) (M : 'M[R]_(p, n)) :
  dot_tr 0 +%R *%R A M = A *m M^T.
Proof.
apply/matrixP=> i j; rewrite !mxE.
by apply: eq_bigr => k _; rewrite mxE.
Qed.

Lemma bootstrap_data_array_flE (V n : nat) (draw : n.-tuple 'I_n)
    (data : 'M[R]_(V, n)) (H Rm : 'M[R]_n) (permute : option (n.-tuple 'I_n)) :
  bootstrap_data_array_fl 0 +%R *%R draw data H Rm permute
  = bootstrap_data_array draw data H Rm permute.
Proof.
rewrite /bootstrap_data_array_fl /bootstrap_data_array dot_trE.
by congr (_ *m _^T); apply/matrixP=> i j; rewrite !mxE.
Qed.

Lemma bootstrap_data_voxel_flE (n : nat) (draw : n.-tuple 'I_n)
    (data : 'rV[R]_n) (H Rm : 'M[R]_n) (permute : option (n.-tuple 'I_n)) :
  bootstrap_data_voxel_fl 0 +%R *%R draw data H Rm permute
  = bootstrap_data_voxel draw data H Rm permute.
Proof.
rewrite /bootstrap_data_voxel_fl /bootstrap_data_voxel !dot_trE.
by apply/rowP=> j; rewrite !mxE.
Qed.

(** Claim C6, amended.  Bit for bit, that is in an arithmetic [F] whose
    operations obey no law: with an explicit permutation neither routine
    reads the random draw, so that two calls with the same permutation give
    the same output; with the identity permutation the array routine
    returns dot(data, (H + R)^T) as it is written, and the voxel routine
    the sum of dot(data, H^T) and dot(data, R^T).  In exact arithmetic,
    that is over a real field, where the second reading of the routines is
    the first: on a one-dimensional data vector and an explicit
    permutation the voxel routine and the array routine agree, and with
    the identity permutation both give data . (H + R)^T. *)
Theorem bootstrap_data_voxel_array
    (F : Type) (fzero : F) (fadd fmul : F -> F -> F)
    (n : nat) (draw : n.-tuple 'I_n) (permute : n.-tuple 'I_n)
    (dataF : 'rV[F]_n) (HF RmF : 'M[F]_n)
    (data : 'rV[R]_n) (H Rm : 'M[R]_n) :
  [/\ forall draw' : n.-tuple 'I_n,
        bootstrap_data_voxel_fl fzero fadd fmul draw' dataF HF RmF
          (Some permute)
        = bootstrap_data_voxel_fl fzero fadd fmul draw dataF HF RmF
            (Some permute)
        /\ bootstrap_data_array_fl fzero fadd fmul draw' dataF HF RmF
             (Some permute)
           = bootstrap_data_array_fl fzero fadd fmul draw dataF HF RmF
               (Some permute),
      bootstrap_data_array_fl fzero fadd fmul draw dataF HF RmF
        (Some (ord_tuple n))
      = dot_tr fzero fadd fmul dataF (\matrix_(i, j) fadd (HF i j) (RmF i j)),
      bootstrap_data_voxel_fl fzero fadd fmul draw dataF HF RmF
        (Some (ord_tuple n))
      = \row_j fadd (dot_tr fzero fadd fmul dataF HF 0 j)
                    (dot_tr fzero fadd fmul dataF RmF 0 j),
      forall p : option (n.-tuple 'I_n),
        bootstrap_data_voxel_fl 0 +%R *%R draw data H Rm p
        = bootstrap_data_voxel draw data H Rm p
        /\ bootstrap_data_array_fl 0 +%R *%R draw data H Rm p
           = bootstrap_data_array draw data H Rm p
    & [/\ bootstrap_data_voxel draw data H Rm (Some permute)
          = bootstrap_data_array draw data H Rm (Some permute),
          bootstrap_data_voxel draw data H Rm (Some (ord_tuple n))
          = data *m (H + Rm)^T,
          bootstrap_data_array draw data H Rm (Some (ord_tuple n))
          = data *m (H + Rm)^T
        & forall draw' : n.-tuple 'I_n,
            bootstrap_data_voxel draw' data H Rm (Some permute)
            = bootstrap_data_voxel draw data H Rm (Some permute)
            /\ bootstrap_data_array draw' data H Rm (Some permute)
               = bootstrap_data_array draw data H Rm (Some permute)]].
Proof.
split.
- by [].
- rewrite /bootstrap_data_array_fl; congr (dot_tr _ _ _ _ _).
  by apply/matrixP=> i j; rewrite !mxE tnth_ord_tuple.
- rewrite /bootstrap_data_voxel_fl.
  by apply/rowP=> j; rewrite !mxE tnth_ord_tuple.
- by move=> p; rewrite bootstrap_data_voxel_flE bootstrap_data_array_flE.
- split.
  + by rewrite bootstrap_data_voxelE.
  + by rewrite bootstrap_data_voxelE rowsub_ord_tuple.
  + by rewrite /bootstrap_data_array rowsub_ord_tuple.
  + by [].
Qed.

(** Claim C6, as stated: in binary64 the two routines differ.  For the data
    [0.1], H = [[0.1]], R = [[0.3]] and the permutation [0] the voxel
    routine returns 0.1 * 0.1 + 0.1 * 0.3 = 0.04 and the array routine
    0.1 * (0.1 + 0.3) = 0.04000000000000001, one unit in the last place
    above.  Every dot product has one term here, so that the order in which
    [numpy.dot] adds plays no part. *)
Lemma bootstrap_data_binary64_differ :
  let data : 'rV[float]_1 := const_mx 0x1.999999999999ap-4%float in
  let H : 'M[float]_1 := const_mx 0x1.999999999999ap-4%float in
  let Rm : 'M[float]_1 := const_mx 0x1.3333333333333p-2%float in
  let permute : 1.-tuple 'I_1 := [tuple ord0] in
  let voxel :=
    bootstrap_data_voxel_fl 0%float PrimFloat.add PrimFloat.mul
      permute data H Rm (Some permute) in
  let array :=
    bootstrap_data_array_fl 0%float PrimFloat.add PrimFloat.mul
      permute data H Rm (Some permute) in
  [/\ voxel ord0 ord0 = 0x1.47ae147ae147bp-5%float,
      array ord0 ord0 = 0x1.47ae147ae147cp-5%float
    & voxel <> array].
Proof.
move=> data H Rm permute voxel array.
have Ev : voxel ord0 ord0 = 0x1.47ae147ae147bp-5%float.
  by rewrite /voxel /bootstrap_data_voxel_fl /dot_tr !mxE !big_ord_recl
             !big_ord0 !mxE.
have Ea : array ord0 ord0 = 0x1.47ae147ae147cp-5%float.
  by rewrite /array /bootstrap_data_array_fl /dot_tr !mxE !big_ord_recl
             !big_ord0 !mxE.
split=> // E.
have : PrimFloat.eqb 0x1.47ae147ae147bp-5%float 0x1.47ae147ae147bp-5%float
       = PrimFloat.eqb 0x1.47ae147ae147cp-5%float 0x1.47ae147ae147bp-5%float.
  by rewrite -Ev -Ea E.
by vm_compute.
Qed.

(** Without a permutation the two routines use the drawn one. *)
Lemma bootstrap_data_voxel_draw (n : nat) (draw : n.-tuple 'I_n)
    (data : 'rV[R]_n) (H Rm : 'M[R]_n) :
  bootstrap_data_voxel draw data H Rm None
  = bootstrap_data_voxel draw data H Rm (Some draw).
Proof. by []. Qed.

Section WrapperTheory.

Variables (N nd : nat) (index_t : Type).

Section SetItem.

Variables (where_ : nd.-tuple 'I_N) (values : 'rV[R]_nd).

Let write (s : 'rV[R]_N) (j : 'I_nd) : 'rV[R]_N :=
  \row_k (if k == tnth where_ j then values 0 j else s 0 k).

Lemma foldl_write_out (js : seq 'I_nd) (s : 'rV[R]_N) (k : 'I_N) :
  all (fun j => tnth where_ j != k) js -> foldl write s js 0 k = s 0 k.
Proof.
elim: js s => [|j js IH] s //= /andP [Hj Hjs].
by rewrite IH // /write mxE eq_sym (negbTE Hj).
Qed.

Lemma foldl_write_in (js : seq 'I_nd) (s : 'rV[R]_N) (k : 'I_N) :
  has (fun j => tnth where_ j == k) js ->
  exists2 j, tnth where_ j = k & foldl write s js 0 k = values 0 j.
Proof.
elim: js s => [|j js IH] s //=.
case Hjs: (has (fun j0 => tnth where_ j0 == k) js).
  by move=> _; apply: IH.
rewrite orbF => /eqP Hj; exists j => //.
have /hasPn Hall := negbT Hjs.
have -> : foldl write (write s j) js 0 k = write s j 0 k.
  by apply: foldl_write_out; apply/allP=> j0 /Hall.
by rewrite /write mxE -Hj eqxx.
Qed.

Lemma setitem_out (signal : 'rV[R]_N) (k : 'I_N) :
  k \notin where_ -> setitem signal where_ values 0 k = signal 0 k.
Proof.
move=> Hk; apply: foldl_write_out; apply/allP=> j _.
by apply: contra Hk => /eqP <-; apply: mem_tnth.
Qed.

Lemma setitem_in (signal : 'rV[R]_N) (k : 'I_N) :
  k \in where_ ->
  exists2 j, tnth where_ j = k & setitem signal where_ values 0 k = values 0 j.
Proof.
case/tnthP=> j Hj; apply: foldl_write_in; apply/hasP.
by exists j; rewrite ?mem_enum // Hj.
Qed.

End SetItem.

Lemma load_alloc (h : heap R N) (v : 'rV[R]_N) :
  load (alloc h v).2 (alloc h v).1 = v.
Proof. by rewrite /load /alloc /= nth_rcons ltnn eqxx. Qed.

Lemma load_store_same (h : heap R N) (r : nat) (v : 'rV[R]_N) :
  load (store h r v) r = v.
Proof. by rewrite /load /store nth_set_nth /= eqxx. Qed.

Lemma load_store_other (h : heap R N) (r r0 : nat) (v : 'rV[R]_N) :
  r0 != r -> load (store h r v) r0 = load h r0.
Proof. by move=> Hr; rewrite /load /store nth_set_nth /= (negbTE Hr). Qed.

Lemma load_alloc_old (h : heap R N) (v : 'rV[R]_N) (r0 : nat) :
  (r0 < size h)%N -> load (alloc h v).2 r0 = load h r0.
Proof. by move=> Hr; rewrite /load /alloc /= nth_rcons Hr. Qed.

(** Claim C7.  Indexing the wrapper returns a new array: at each position of
    [where_dwi] it holds a bootstrap value of the stored signal clipped to
    [min_signal, 1], everywhere else it holds the stored signal's entry,
    and the arrays that existed before the call, the stored signal among
    them, are as they were. *)
Theorem ResidualBootstrapWrapper_getitem_frame
    (self : ResidualBootstrapWrapper R N nd index_t) (idx : index_t)
    (draw : nd.-tuple 'I_nd) (h : heap R N) :
  (_signal_object self idx < size h)%N ->
  let stored := load h (_signal_object self idx) in
  let boot :=
    bootstrap_data_voxel draw (colsub (tnth (boot_where_dwi self)) stored)
      (_H self) (_R self) None in
  let out := ResidualBootstrapWrapper_getitem self idx draw h in
  let signal := load out.2 out.1 in
  [/\ out.1 = size h /\ size out.2 = (size h).+1,
      (forall k : 'I_N, k \in boot_where_dwi self ->
         exists2 j : 'I_nd, tnth (boot_where_dwi self) j = k
           & signal 0 k = clip (_min_signal self) 1 (boot 0 j))
      /\ (injective (tnth (boot_where_dwi self)) ->
          forall j : 'I_nd,
            signal 0 (tnth (boot_where_dwi self) j)
            = clip (_min_signal self) 1 (boot 0 j)),
      forall k : 'I_N, k \in boot_where_dwi self ->
        signal 0 k <= 1 /\ (_min_signal self <= 1 -> _min_signal self <= signal 0 k),
      forall k : 'I_N, k \notin boot_where_dwi self -> signal 0 k = stored 0 k
    & (forall r : nat, (r < size h)%N -> load out.2 r = load h r)
      /\ load out.2 (_signal_object self idx) = stored].
Proof.
move=> Hvalid stored boot out signal.
have outE : out = (size h, store (rcons h stored) (size h)
                     (setitem stored (boot_where_dwi self)
                        (map_mx (clip (_min_signal self) 1) boot))).
  rewrite /out /ResidualBootstrapWrapper_getitem /alloc /=.
  by rewrite /load nth_rcons ltnn eqxx.
have signalE : signal = setitem stored (boot_where_dwi self)
                          (map_mx (clip (_min_signal self) 1) boot).
  by rewrite /signal outE /= load_store_same.
have old r : (r < size h)%N -> load out.2 r = load h r.
  move=> Hr; rewrite outE /= load_store_other ?(ltn_eqF Hr) //.
  by rewrite /load nth_rcons Hr.
have inE k : k \in boot_where_dwi self ->
    exists2 j : 'I_nd, tnth (boot_where_dwi self) j = k
      & signal 0 k = clip (_min_signal self) 1 (boot 0 j).
  move=> Hk; rewrite signalE.
  by have [j Hj ->] := setitem_in (map_mx (clip (_min_signal self) 1) boot) stored Hk;
     exists j => //; rewrite mxE.
split=> //.
- by rewrite outE /= /store size_set_nth size_rcons maxnn.
- split=> // Hinj j.
  by have [j' /Hinj -> ->] := inE _ (mem_tnth j (boot_where_dwi self)).
- move=> k /inE [j _ ->]; split; first exact: clip_le_hi.
  by move=> Hmin; have /andP [] := clip_bounds (boot 0 j) Hmin.
- by move=> k Hk; rewrite signalE setitem_out.
- by split; [exact: old | exact: old].
Qed.

End WrapperTheory.

End BootstrapTheory.

Lemma ResidualBootstrapWrapper_getitem_frame_witness :
  let self : ResidualBootstrapWrapper rat 2 1 unit :=
    mkResidualBootstrapWrapper (fun _ : unit => 0%N) 0%R 0%R 0%R
      [tuple ord_max] in
  let draw : 1.-tuple 'I_1 := [tuple ord0] in
  let h : heap rat 2 := [:: const_mx 1%R] in
  let stored := load h (_signal_object self tt) in
  let boot :=
    bootstrap_data_voxel draw (colsub (tnth (boot_where_dwi self)) stored)
      (_H self) (_R self) None in
  let out := ResidualBootstrapWrapper_getitem self tt draw h in
  let signal := load out.2 out.1 in
  [/\ out.1 = size h /\ size out.2 = (size h).+1,
      (forall k : 'I_2, k \in boot_where_dwi self ->
         exists2 j : 'I_1, tnth (boot_where_dwi self) j = k
           & signal 0%R k = clip (_min_signal self) 1%R (boot 0%R j))
      /\ (injective (tnth (boot_where_dwi self)) ->
          forall j : 'I_1,
            signal 0%R (tnth (boot_where_dwi self) j)
            = clip (_min_signal self) 1%R (boot 0%R j)),
      forall k : 'I_2, k \in boot_where_dwi self ->
        (signal 0 k <= 1)%R
        /\ ((_min_signal self <= 1)%R -> (_min_signal self <= signal 0 k)%R),
      forall k : 'I_2, k \notin boot_where_dwi self ->
        signal 0%R k = stored 0%R k
    & (forall r : nat, (r < size h)%N -> load out.2 r = load h r)
      /\ load out.2 (_signal_object self tt) = stored].
Proof.
by apply: (@ResidualBootstrapWrapper_getitem_frame rat 2 1 unit
             (mkResidualBootstrapWrapper (fun _ : unit => 0%N) 0%R 0%R 0%R
                [tuple ord_max])
             tt [tuple ord0] [:: const_mx 1%R]).
Defined.

(* ---------------------------------------------------------------------- *)
(** * Properties of normalize_data *)
(* ---------------------------------------------------------------------- *)

Section NormalizeTheory.
Local Open Scope ring_scope.

Variable R : realFieldType.
Variables V N nb : nat.

(** What [normalize_data] computes: every entry is clipped below at the
    floor and divided by the mean of the clipped b0 entries of its row. *)
Lemma normalize_dataE (data : 'M[R]_(V, N)) (where_b0 : nb.-tuple 'I_N)
    (min_signal : R) :
  normalize_data data where_b0 min_signal None
  = Ok (\matrix_(i, k)
          (clip_min min_signal (data i k)
           / ((\sum_(j < nb) clip_min min_signal (data i (tnth where_b0 j)))
              / nb%:R))).
Proof.
rewrite /normalize_data /=; congr Ok; apply/matrixP=> i k; rewrite !mxE.
by congr (_ / (_ / _)); apply: eq_bigr => j _; rewrite !mxE.
Qed.

Lemma normalize_data_constant_b0 (data : 'M[R]_(V, N))
    (where_b0 : nb.-tuple 'I_N) (min_signal c : R) :
  (0 < nb)%N ->
  (forall i j, data i (tnth where_b0 j) = c) ->
  normalize_data data where_b0 min_signal None
  = Ok (\matrix_(i, k)
          (clip_min min_signal (data i k) / clip_min min_signal c)).
Proof.
move=> nb_gt0 b0E; rewrite normalize_dataE; congr Ok.
apply/matrixP=> i k; rewrite !mxE; congr (_ / _).
rewrite (eq_bigr (fun=> clip_min min_signal c)); first by move=> j _; rewrite b0E.
by rewrite sumr_const card_ord -mulr_natr mulfK // pnatr_eq0 -lt0n.
Qed.

(** Claim C9, amended.  With at least one b0 channel: every entry of the result
    is the entry of the input clipped below at the floor [f] and divided
    by the mean of the clipped b0 channels of its signal, whenever no such
    mean is zero; and when all b0 channels hold the constant [c] with
    max(c, f) not zero, the result is clip(signal, f, infinity) / max(c, f),
    which is clip(signal, f, infinity) / c when the floor is at most [c]. *)
Theorem normalize_data_spec (data : 'M[R]_(V, N))
    (where_b0 : nb.-tuple 'I_N) (f : R) :
  (0 < nb)%N ->
  let b0 : 'cV[R]_V :=
    \col_i ((\sum_(j < nb) Num.max (data i (tnth where_b0 j)) f) / nb%:R) in
  ((forall i, b0 i 0 != 0) ->
   normalize_data data where_b0 f None
   = Ok (\matrix_(i, k) (Num.max (data i k) f / b0 i 0)))
  /\ (forall c : R,
        (forall i j, data i (tnth where_b0 j) = c) ->
        Num.max c f != 0 ->
        [/\ forall i, b0 i 0 = Num.max c f,
            normalize_data data where_b0 f None
            = Ok (\matrix_(i, k) (Num.max (data i k) f / Num.max c f))
          & f <= c ->
            normalize_data data where_b0 f None
            = Ok (\matrix_(i, k) (Num.max (data i k) f / c))]).
Proof.
move=> nb_gt0 b0; split=> [_|c b0E _].
  rewrite normalize_dataE; congr Ok.
  by apply/matrixP=> i k; rewrite !mxE.
split.
- move=> i; rewrite /b0 mxE.
  rewrite (eq_bigr (fun=> Num.max c f)); first by move=> j _; rewrite b0E.
  by rewrite sumr_const card_ord -mulr_natr mulfK // pnatr_eq0 -lt0n.
- exact: normalize_data_constant_b0.
- by move=> fc; rewrite (normalize_data_constant_b0 f nb_gt0 b0E) /clip_min (max_l fc).
Qed.

End NormalizeTheory.

Lemma normalize_data_spec_witness :
  let data : 'M[rat]_(1, 2) := const_mx 3%:R%R in
  let where_b0 : 1.-tuple 'I_2 := [tuple ord0] in
  let b0 : 'cV[rat]_1 :=
    (\col_i ((\sum_(j < 1) Num.max (data i (tnth where_b0 j)) 1) / 1%:R))%R in
  [/\ normalize_data data where_b0 1%R None
      = Ok (\matrix_(i, k) (Num.max (data i k) 1 / b0 i 0))%R,
      forall i, b0 i 0%R = Num.max 3%:R%R 1%R,
      normalize_data data where_b0 1%R None
      = Ok (\matrix_(i, k) (Num.max (data i k) 1 / Num.max 3%:R 1))%R
    & normalize_data data where_b0 1%R None
      = Ok (\matrix_(i, k) (Num.max (data i k) 1 / 3%:R))%R].
Proof.
move=> data where_b0 b0.
have b0E (i : 'I_1) (j : 'I_1) : data i (tnth where_b0 j) = 3%:R%R.
  by rewrite mxE.
have max3 : Num.max (3%:R : rat)%R 1%R = 3%:R%R by [].
have [gen cst] := @normalize_data_spec _ 1 2 1 data where_b0 1%R (ltn0Sn 0).
have [|b0c Emax Ec] := cst 3%:R%R b0E; first by rewrite max3.
split.
- by apply: gen => i; rewrite b0c max3.
- exact: b0c.
- exact: Emax.
- by apply: Ec.
Defined.

(** Claim C9, as stated: the quotient is not by [c] when the floor is above [c].
    One voxel, one channel, which is the b0 channel and holds c = 1; with
    the floor 2 the result is 2 / 2 = 1 and not 2 / 1. *)
Lemma normalize_data_floor_above_b0 :
  let data : 'M[rat]_(1, 1) := const_mx 1%R in
  let where_b0 : 1.-tuple 'I_1 := [tuple ord0] in
  (forall i j, data i (tnth where_b0 j) = 1%R)
  /\ normalize_data data where_b0 2%:R%R None
     <> Ok (\matrix_(i, k) (clip_min 2%:R (data i k) / 1))%R.
Proof.
have b0E (i : 'I_1) (j : 'I_1) :
    (const_mx 1 : 'M[rat]_(1, 1))%R i (tnth [tuple ord0] j) = 1%R.
  by rewrite mxE.
split=> //; rewrite (normalize_data_constant_b0 2%:R%R (ltn0Sn 0) b0E).
case=> /matrixP /(_ ord0 ord0); rewrite !mxE /clip_min.
have -> : Num.max (1 : rat)%R 2%:R%R = 2%:R%R by apply: max_r; rewrite ler1n.
rewrite divff; first by rewrite pnatr_eq0.
by rewrite divr1 => /eqP; rewrite -[1%R]/(1%:R%R) eqr_nat.
Qed.

(* ---------------------------------------------------------------------- *)
(** * Properties of sf_to_sh and sh_to_sf *)
(* ---------------------------------------------------------------------- *)

Section TransformTheory.
Local Open Scope ring_scope.

Variable R : realFieldType.
Variable sqrt : R -> R.
Variable pinv : forall p q : nat, 'M[R]_(p, q) -> 'M[R]_(q, p).
Variables sph_harm_re sph_harm_im : Z -> Z -> R -> R -> R.
Variable junk : nat -> Z.

Let lookup := sph_harm_lookup sqrt sph_harm_re sph_harm_im.

Lemma sph_harm_lookup_invalid (name : string) :
  name <> "mrtrix"%string -> name <> "fibernav"%string ->
  lookup (Some name) = None.
Proof. by rewrite /lookup /= => /String.eqb_neq -> /String.eqb_neq ->. Qed.

Lemma coef_count_ge0 (sh_order : Z) :
  (((sh_order + 1) * (sh_order + 2) / 2 <? 0) = false)%Z.
Proof.
apply/Z.ltb_ge/Z.div_pos; last by [].
have [Hle|Hge] : (sh_order <= -2 \/ -1 <= sh_order)%Z by lia.
  by nia.
by nia.
Qed.

Variables V q : nat.
Variable sphere : Sphere R q.

Lemma sf_to_sh_invalid (sf : 'M[R]_(V, q)) (sh_order : Z) (smooth : R)
    (name : string) :
  name <> "mrtrix"%string -> name <> "fibernav"%string ->
  let out := sf_to_sh sqrt pinv sph_harm_re sph_harm_im junk sf sphere
               sh_order (Some name) smooth in
  out.1 = [:: OpIndList] /\ raises out.2.
Proof.
move=> H1 H2; rewrite /sf_to_sh -/lookup sph_harm_lookup_invalid //.
by case: (sph_harm_ind_list junk sh_order) => [[m n]|e].
Qed.

Lemma sh_to_sf_invalid (k : nat) (sh : 'M[R]_(V, k)) (sh_order : Z)
    (name : string) :
  name <> "mrtrix"%string -> name <> "fibernav"%string ->
  let out := sh_to_sf sqrt sph_harm_re sph_harm_im junk sh sphere
               sh_order (Some name) in
  out.1 = [:: OpIndList] /\ raises out.2.
Proof.
move=> H1 H2; rewrite /sh_to_sf -/lookup sph_harm_lookup_invalid //.
by case: (sph_harm_ind_list junk sh_order) => [[m n]|e].
Qed.

Lemma sf_to_sh_valid (sf : 'M[R]_(V, q)) (sh_order : Z) (smooth : R)
    (bt : option string) (basis : Z -> Z -> R -> R -> R) (m n : seq Z) :
  sph_harm_ind_list junk sh_order = Ok (m, n) -> size m = size n ->
  lookup bt = Some basis ->
  sf_to_sh sqrt pinv sph_harm_re sph_harm_im junk sf sphere sh_order bt smooth
  = ([:: OpIndList; OpBasis; OpSmoothPinv; OpZeros; OpDot],
     Ok (existT (fun k => 'M[R]_(V, k)) (size m)
           (sf *m (smooth_pinv pinv
                     (basis_matrix basis m n (phi sphere) (theta sphere))
                     (sqrt smooth *: laplace_beltrami R n (size m)))^T))).
Proof.
move=> Hmn Hsize Hbasis.
by rewrite /sf_to_sh -/lookup Hmn Hbasis /= -Hsize eqxx /= coef_count_ge0.
Qed.

Lemma sh_to_sf_valid (sh_order : Z) (bt : option string)
    (basis : Z -> Z -> R -> R -> R) (m n : seq Z)
    (sh : 'M[R]_(V, size m)) :
  sph_harm_ind_list junk sh_order = Ok (m, n) -> size m = size n ->
  lookup bt = Some basis ->
  sh_to_sf sqrt sph_harm_re sph_harm_im junk sh sphere sh_order bt
  = ([:: OpIndList; OpBasis; OpZeros; OpDot],
     Ok (sh *m (basis_matrix basis m n (phi sphere) (theta sphere))^T)).
Proof.
move=> Hmn Hsize Hbasis.
rewrite /sh_to_sf -/lookup Hmn Hbasis /= -Hsize eqxx /=.
by case: eqP => // e; rewrite castmx_id.
Qed.




End TransformTheory.



(* ---------------------------------------------------------------------- *)
(** * Further properties: the bases and smooth_pinv *)
(* ---------------------------------------------------------------------- *)

Section BasisTheory.
Local Open Scope ring_scope.

Variable R : realFieldType.
Variable sqrt : R -> R.
Variables sph_harm_re sph_harm_im : Z -> Z -> R -> R -> R.

(** For a negative order the MRtrix basis function is minus the imaginary
    part of the harmonic, whatever the parity of the order: the factor
    [neg_ones] is -1 times a power of one. *)
Theorem real_sph_harm_mrtrix_negative (m n : Z) (theta phi : R) :
  (m < 0)%Z ->
  real_sph_harm_mrtrix sph_harm_re sph_harm_im m n theta phi
  = - sph_harm_im m n theta phi.
Proof.
move=> Hm; rewrite /real_sph_harm_mrtrix.
have -> : (m == 0%Z) = false by rewrite Z_eqE; lia.
have -> : (0 <? m)%Z = false by lia.
by rewrite exp1rz mulr1 mulN1r.
Qed.

(** The dipy basis and the MRtrix basis differ by the factor sqrt(2) for a
    positive order and by -sqrt(2) for a negative one, and agree, with the
    FiberNavigator basis, at order zero. *)
Theorem real_sph_harm_vs_mrtrix (m n : Z) (theta phi : R) :
  real_sph_harm sqrt sph_harm_re sph_harm_im m n theta phi
  = (if (m == 0%Z) then 1 else if (0 <? m)%Z then sqrt 2 else - sqrt 2)
    * real_sph_harm_mrtrix sph_harm_re sph_harm_im m n theta phi
  /\ (m = 0%Z ->
      real_sph_harm_fibernav sqrt sph_harm_re sph_harm_im m n theta phi
      = real_sph_harm sqrt sph_harm_re sph_harm_im m n theta phi).
Proof.
split; last by move=> ->.
rewrite /real_sph_harm /real_sph_harm_mrtrix.
case: ifP => _; first by rewrite mul1r.
case: ifP => _; first by rewrite mulrC.
by rewrite exp1rz mulr1 mulN1r mulrNN mulrC.
Qed.

(** The table of bases has the three keys None, mrtrix and fibernav, and
    no other. *)
Theorem sph_harm_lookup_keys (basis_type : option string) :
  (sph_harm_lookup sqrt sph_harm_re sph_harm_im basis_type = None)
  <-> (exists2 name : string, basis_type = Some name
         & name <> "mrtrix"%string /\ name <> "fibernav"%string).
Proof.
split.
  case: basis_type => [name|] //=.
  case E1: (name =? "mrtrix")%string => //.
  case E2: (name =? "fibernav")%string => // _.
  by exists name => //; split; apply/String.eqb_neq.
case=> name -> [/String.eqb_neq H1 /String.eqb_neq H2].
by rewrite /= H1 H2.
Qed.

End BasisTheory.

Lemma real_sph_harm_mrtrix_negative_witness :
  real_sph_harm_mrtrix (fun _ _ _ _ => 0%R) (fun _ _ _ _ => 1%R : rat)
    (-1)%Z 2%Z 0%R 0%R
  = (- 1)%R.
Proof.
by apply: (@real_sph_harm_mrtrix_negative rat (fun _ _ _ _ => 0%R)
             (fun _ _ _ _ => 1%R) (-1)%Z 2%Z 0%R 0%R).
Defined.

Section SmoothPinvTheory.
Local Open Scope ring_scope.

Variable R : realFieldType.
Variable pinv : forall p q : nat, 'M[R]_(p, q) -> 'M[R]_(q, p).

(** A matrix whose Gram matrix is invertible has the pseudo-inverse
    (A^T A)^-1 A^T. *)
Lemma is_pinv_gram (p q : nat) (A : 'M[R]_(p, q)) :
  A^T *m A \in unitmx -> is_pinv A (invmx (A^T *m A) *m A^T).
Proof.
move=> Hu; split.
- by rewrite -!mulmxA mulVmx // mulmx1.
- by rewrite -(mulmxA _ A^T A) mulVmx // mul1mx.
- rewrite !trmx_mul trmxK trmx_inv trmx_mul trmxK.
  by rewrite mulmxA.
- by rewrite -mulmxA mulVmx // trmx1.
Qed.

(** The formula of the docstring: when the pseudo-inverse routine returns
    the pseudo-inverse of the stacked matrix and B^T B + L^2 is invertible,
    [smooth_pinv B L] is (B^T B + L^2)^-1 B^T, with L^2 the square of the
    diagonal matrix of the weights. *)
Theorem smooth_pinv_normal_equations (n m : nat) (B : 'M[R]_(n, m))
    (L : 'rV[R]_m) :
  is_pinv (col_mx B (diag_mx L)) (pinv (col_mx B (diag_mx L))) ->
  B^T *m B + diag_mx L *m diag_mx L \in unitmx ->
  smooth_pinv pinv B L
  = invmx (B^T *m B + diag_mx L *m diag_mx L) *m B^T.
Proof.
move=> HA Hu; rewrite smooth_pinvE.
have gramE : (col_mx B (diag_mx L))^T *m col_mx B (diag_mx L)
             = B^T *m B + diag_mx L *m diag_mx L.
  by rewrite tr_col_mx mul_row_col tr_diag_mx.
have HX := @is_pinv_gram _ _ (col_mx B (diag_mx L)).
rewrite gramE in HX.
rewrite (is_pinv_unique HA (HX Hu)) tr_col_mx mul_mx_row.
by rewrite row_mxKl.
Qed.

End SmoothPinvTheory.

Lemma smooth_pinv_normal_equations_witness :
  let pinv := fun (p q : nat) (A : 'M[rat]_(p, q)) => A^T%R in
  let B : 'M[rat]_2 := 1%:M%R in
  let L : 'rV[rat]_2 := 0%R in
  smooth_pinv pinv B L
  = (invmx (B^T *m B + diag_mx L *m diag_mx L) *m B^T)%R.
Proof.
apply: (@smooth_pinv_normal_equations rat (fun p q A => A^T%R) 2 2 1%:M%R 0%R).
  apply: is_pinv_trmx.
  by rewrite diag_mx0 tr_col_mx mul_row_col trmx1 mulmx1 trmx0 mulmx0 addr0.
by rewrite diag_mx0 mulmx0 addr0 trmx1 mulmx1 unitmx1.
Defined.

(* ---------------------------------------------------------------------- *)
(** * Further properties: normalisation and fitting *)
(* ---------------------------------------------------------------------- *)

Section FitTheory.
Local Open Scope ring_scope.

Variable R : realFieldType.
Variables sqrt log : R -> R.
Variable pinv : forall p q : nat, 'M[R]_(p, q) -> 'M[R]_(q, p).
Variables N nb nd nc : nat.




(** Masking changes no fitted voxel: for a voxel inside the mask, [fit]
    with the mask returns the coefficients [fit] returns without. *)
Theorem fit_mask (V : nat) (self : SphHarmModel R N nb nd nc)
    (data : 'M[R]_(V, N)) (mask : V.-tuple bool) :
  exists coef coef_masked : 'M[R]_(V, nc),
    [/\ fit log self data None = Ok coef,
        fit log self data (Some mask) = Ok coef_masked
      & forall i : 'I_V, tnth mask i ->
          forall k : 'I_nc, coef_masked i k = coef i k].
Proof.
rewrite /fit; case: (assume_normed self); rewrite ?normalize_dataE /=.
  eexists; eexists; split=> // i Hi k.
  by rewrite !mxE Hi mulr1.
eexists; eexists; split=> // i Hi k.
by rewrite !mxE Hi mulr1.
Qed.

(** The q-ball coefficients are the diffusion-weighted signal times the
    transpose of F*invB, and they are linear in the data. *)
Theorem QballModel_coefficients (V : nat)
    (B : 'M[R]_(nd, nc)) (L F : 'rV[R]_nc) (smooth : R)
    (where_dwi : nd.-tuple 'I_N) (data data' : 'M[R]_(V, N)) (a : R) :
  let invB := smooth_pinv pinv B (sqrt smooth *: L) in
  let fit_matrix := QballModel_set_fit_matrix sqrt pinv B L F smooth in
  let signal : 'M[R]_(V, nd) := \matrix_(i, j) data i (tnth where_dwi j) in
  [/\ fit_matrix = diag_mx F *m invB,
      QballModel_get_shm_coef fit_matrix where_dwi data
      = signal *m (diag_mx F *m invB)^T
    & QballModel_get_shm_coef fit_matrix where_dwi (a *: data + data')
      = a *: QballModel_get_shm_coef fit_matrix where_dwi data
        + QballModel_get_shm_coef fit_matrix where_dwi data'].
Proof.
move=> invB fit_matrix signal.
have fitE : fit_matrix = diag_mx F *m invB.
  rewrite /fit_matrix /QballModel_set_fit_matrix mul_diag_mx.
  by apply/matrixP=> k j; rewrite !mxE.
split=> //.
- by rewrite /QballModel_get_shm_coef -fitE.
- rewrite /QballModel_get_shm_coef scalemxAl -mulmxDl; congr (_ *m _).
  by apply/matrixP=> i j; rewrite !mxE.
Qed.

Lemma clip_idem (lo hi x : R) :
  lo <= hi -> clip lo hi (clip lo hi x) = clip lo hi x.
Proof.
move=> lohi; have /andP [Hlo Hhi] := clip_bounds x lohi.
by rewrite {1}/clip (max_l Hlo) (min_l Hhi).
Qed.

(** The CSA coefficients depend on the data through its clipped values
    only: data already clipped to [0.001, 0.999] gives the same result. *)
Theorem CsaOdfModel_clip_data (V : nat) (M : 'M[R]_(nc, nd))
    (where_dwi : nd.-tuple 'I_N) (data : 'M[R]_(V, N)) :
  CsaOdfModel_get_shm_coef log M where_dwi
    (map_mx (clip (1 / 1000%:R) (999%:R / 1000%:R)) data)
  = CsaOdfModel_get_shm_coef log M where_dwi data.
Proof.
rewrite /CsaOdfModel_get_shm_coef; congr (_ *m _).
apply/matrixP=> i j; rewrite !mxE.
by rewrite [clip _ _ (clip _ _ _)]clip_idem //; apply: CsaOdfModel_min_max.
Qed.

Lemma rowsub_get_shm_coef (V k : nat) (self : SphHarmModel R N nb nd nc)
    (f : 'I_k -> 'I_V) (data : 'M[R]_(V, N)) :
  rowsub f (_get_shm_coef log self data)
  = _get_shm_coef log self (rowsub f data).
Proof.
rewrite /_get_shm_coef; case: (_fit_matrix self) => [M|[Mb Mq]|M].
- rewrite /CsaOdfModel_get_shm_coef; apply/matrixP=> i j; rewrite !mxE.
  by apply: eq_bigr => l _; rewrite !mxE.
- rewrite /OpdtModel_get_shm_coef /_slowadc_formula.
  apply/matrixP=> i j; rewrite !mxE; congr (_ - _).
    by apply: eq_bigr => l _; rewrite !mxE.
  by apply: eq_bigr => l _; rewrite !mxE.
- rewrite /QballModel_get_shm_coef; apply/matrixP=> i j; rewrite !mxE.
  by apply: eq_bigr => l _; rewrite !mxE.
Qed.

Lemma SphHarmFit_getitemE (V k : nat) (fitted : SphHarmFit R N nb nd nc V)
    (index : k.-tuple 'I_V) :
  SphHarmFit_getitem fitted index
  = Ok (mkSphHarmFit (SphHarmFit_model fitted)
          (rowsub (tnth index) (_shm_coef fitted))
          (omap (fun m : V.-tuple bool =>
                   [tuple tnth m (tnth index i) | i < k])
                (SphHarmFit_mask fitted))).
Proof.
rewrite /SphHarmFit_getitem; case: (SphHarmFit_mask fitted) => [m|] //.
by rewrite size_tuple eqxx.
Qed.

Lemma fitE (V : nat) (self : SphHarmModel R N nb nd nc)
    (data : 'M[R]_(V, N)) (mask : option (V.-tuple bool)) :
  fit log self data mask
  = Ok (let data :=
          if assume_normed self then data
          else \matrix_(i, k)
                 (clip_min (min_signal self) (data i k)
                  / ((\sum_(j < nb) clip_min (min_signal self)
                                      (data i (tnth (_where_b0s self) j)))
                     / nb%:R)) in
        let coef := _get_shm_coef log self data in
        match mask with
        | Some mask => \matrix_(i, k) (coef i k * (tnth mask i)%:R)
        | None => coef
        end).
Proof. by rewrite /fit; case: (assume_normed self); rewrite ?normalize_dataE. Qed.

(** Fitting and selecting voxels commute: indexing the fit of the data
    gives the fit of the selected voxels made with the selected mask. *)
Theorem SphHarmFit_getitem_fit (V k : nat)
    (self : SphHarmModel R N nb nd nc) (data : 'M[R]_(V, N))
    (mask : option (V.-tuple bool)) (index : k.-tuple 'I_V) :
  (fitted <- SphHarmModel_fit log self data mask ;;
   SphHarmFit_getitem fitted index)
  = SphHarmModel_fit log self (rowsub (tnth index) data)
      (omap (fun m : V.-tuple bool => [tuple tnth m (tnth index i) | i < k])
            mask).
Proof.
rewrite /SphHarmModel_fit !fitE [LHS]/= SphHarmFit_getitemE [RHS]/=.
congr (Ok (mkSphHarmFit _ _ _)).
have normE : rowsub (tnth index)
               (\matrix_(i, j)
                  (clip_min (min_signal self) (data i j)
                   / ((\sum_(l < nb) clip_min (min_signal self)
                                       (data i (tnth (_where_b0s self) l)))
                      / nb%:R)))
             = \matrix_(i, j)
                 (clip_min (min_signal self) (rowsub (tnth index) data i j)
                  / ((\sum_(l < nb) clip_min (min_signal self)
                        (rowsub (tnth index) data i (tnth (_where_b0s self) l)))
                     / nb%:R)) :> 'M[R]_(k, N).
  apply/matrixP=> i j; rewrite !mxE.
  by congr (_ / (_ / _)); apply: eq_bigr => l _; rewrite !mxE.
case: mask => [mask|] /=; case: (assume_normed self);
  rewrite -?normE -rowsub_get_shm_coef //;
  by apply/matrixP=> i j; rewrite !mxE tnth_mktuple.
Qed.

End FitTheory.


(* ---------------------------------------------------------------------- *)
(** * Further properties: hat, lcr_matrix and the bootstrap *)
(* ---------------------------------------------------------------------- *)

Section HatTheory.
Local Open Scope ring_scope.

Variable R : realFieldType.
Variable sqrt : R -> R.
Variable svd_U : forall p q : nat, 'M[R]_(p, q) -> 'M[R]_(p, minn p q).

(** The hat matrix is symmetric, and when the columns of the factor U of
    the decomposition are orthonormal it is a projection: H H = H, and
    the residual matrix I - H is a projection that H annihilates. *)
Theorem hat_projection (p q : nat) (B : 'M[R]_(p, q)) :
  (svd_U B)^T *m svd_U B = 1%:M ->
  let H := hat svd_U B in
  [/\ H^T = H, H *m H = H, (1%:M - H) *m (1%:M - H) = 1%:M - H
    & H *m (1%:M - H) = 0].
Proof.
move=> UtU H.
have HH : H *m H = H.
  by rewrite /H /hat /= mulmxA -(mulmxA (svd_U B)) UtU mulmx1.
split=> //.
- by rewrite /H /hat /= trmx_mul trmxK.
- rewrite mulmxBl !mulmxBr !mul1mx mulmx1 HH.
  by rewrite subrr subr0.
- by rewrite mulmxBr mulmx1 HH subrr.
Qed.

(** The matrix of leveraged, centred residuals, when every diagonal entry
    of H is below 1, so that every leverage l = sqrt(1 - diag H) is the
    root of a positive number and is positive: its columns sum to zero,
    and applied to data d it gives r/l - mean(r/l) for the residual
    r = d - H d, as the docstring has it. *)
Theorem lcr_matrix_centered (n : nat) (H : 'M[R]_n) (d : 'cV[R]_n) :
  (forall x : R, 0 < x -> 0 < sqrt x) ->
  (forall i : 'I_n, H i i < 1) ->
  let Rm := lcr_matrix sqrt H in
  let r := d - H *m d in
  let l := fun i : 'I_n => sqrt (1 - H i i) in
  [/\ forall i : 'I_n, 0 < l i,
      forall j : 'I_n, \sum_i Rm i j = 0
    & forall i : 'I_n,
        (Rm *m d) i 0 = r i 0 / l i - (\sum_k r k 0 / l k) / n%:R].
Proof.
move=> sqrt_gt0 H_lt1 Rm r l.
have l_gt0 (i : 'I_n) : 0 < l i by apply: sqrt_gt0; rewrite subr_gt0.
have rE (i : 'I_n) :
    \sum_j (1%:M - H) i j / l i * d j 0 = r i 0 / l i.
  have -> : r = (1%:M - H) *m d by rewrite mulmxBl mul1mx.
  rewrite mxE big_distrl /=.
  by apply: eq_bigr => j _; rewrite mulrAC.
split=> //.
  move=> j; rewrite /Rm /lcr_matrix /=.
  rewrite (eq_bigr (fun i : 'I_n =>
             (1%:M - H) i j / sqrt (1 - H i i)
             - (\sum_k (1%:M - H) k j / sqrt (1 - H k k)) / n%:R)).
    by move=> i _; rewrite !mxE; congr (_ - _ / _); apply: eq_bigr => k _; rewrite !mxE.
  rewrite sumrB sumr_const card_ord -mulr_natr.
  clear l_gt0 H_lt1.
  case: n j H d Rm r l rE => [[]//|n'] j H d Rm r l rE.
  by rewrite divfK ?subrr // pnatr_eq0.
move=> i; rewrite mxE /Rm /lcr_matrix /=.
rewrite (eq_bigr (fun j : 'I_n =>
           (1%:M - H) i j / l i * d j 0
           - (\sum_k (1%:M - H) k j / l k * d j 0) / n%:R)).
  move=> j _; rewrite !mxE mulrBl; congr (_ - _).
  rewrite mulrAC big_distrl /=; congr (_ / _).
  by apply: eq_bigr => k _; rewrite !mxE.
rewrite sumrB rE -big_distrl /= exchange_big /=; congr (_ - _ / _).
by apply: eq_bigr => k _; rewrite rE.
Qed.

Section WrapperTwice.

Variables (N nd : nat) (index_t : Type).

Lemma ResidualBootstrapWrapper_getitemE
    (self : ResidualBootstrapWrapper R N nd index_t) (idx : index_t)
    (draw : nd.-tuple 'I_nd) (h : heap R N) :
  let stored := load h (_signal_object self idx) in
  ResidualBootstrapWrapper_getitem self idx draw h
  = (size h,
     store (rcons h stored) (size h)
       (setitem stored (boot_where_dwi self)
          (map_mx (clip (_min_signal self) 1)
             (bootstrap_data_voxel draw
                (colsub (tnth (boot_where_dwi self)) stored)
                (_H self) (_R self) None)))).
Proof.
rewrite /ResidualBootstrapWrapper_getitem /alloc /=.
by rewrite /load nth_rcons ltnn eqxx.
Qed.

(** Indexing the wrapper twice gives two arrays: the second call does not
    touch the array the first returned, and for the same index and the
    same draw it computes the same values again, from the stored signal. *)
Theorem ResidualBootstrapWrapper_getitem_twice
    (self : ResidualBootstrapWrapper R N nd index_t) (idx : index_t)
    (draw : nd.-tuple 'I_nd) (h : heap R N) :
  (_signal_object self idx < size h)%N ->
  let out1 := ResidualBootstrapWrapper_getitem self idx draw h in
  let out2 := ResidualBootstrapWrapper_getitem self idx draw out1.2 in
  [/\ out1.1 != out2.1,
      load out2.2 out1.1 = load out1.2 out1.1
    & load out2.2 out2.1 = load out1.2 out1.1].
Proof.
move=> Hvalid out1 out2.
have E1 : out1 = _ := ResidualBootstrapWrapper_getitemE self idx draw h.
have E2 : out2 = _ := ResidualBootstrapWrapper_getitemE self idx draw out1.2.
have Hsz : size out1.2 = (size h).+1.
  by rewrite E1 /= /store size_set_nth size_rcons maxnn.
have Hstored : load out1.2 (_signal_object self idx)
               = load h (_signal_object self idx).
  rewrite E1 /= load_store_other ?(ltn_eqF Hvalid) //.
  by rewrite /load nth_rcons Hvalid.
have H1 : out1.1 = size h by rewrite E1.
have H2 : out2.1 = (size h).+1 by rewrite E2 /= Hsz.
have V1 : load out1.2 out1.1
          = setitem (load h (_signal_object self idx)) (boot_where_dwi self)
              (map_mx (clip (_min_signal self) 1)
                 (bootstrap_data_voxel draw
                    (colsub (tnth (boot_where_dwi self))
                       (load h (_signal_object self idx)))
                    (_H self) (_R self) None)).
  by rewrite E1 /= load_store_same.
have Hne : out1.1 != size out1.2 by rewrite Hsz H1 neq_ltn ltnSn.
have Hlt : (out1.1 < size out1.2)%N by rewrite Hsz H1.
clearbody out1.
split.
- by rewrite H1 H2 neq_ltn ltnSn.
- by rewrite E2 /= (@load_store_other _ _ _ _ _ _ Hne) /load nth_rcons Hlt.
- by rewrite E2 /= load_store_same Hstored V1.
Qed.

End WrapperTwice.

End HatTheory.

Lemma hat_projection_witness :
  let svd_U := fun (p q : nat) (_ : 'M[rat]_(p, q)) =>
                 (pid_mx (minn p q) : 'M[rat]_(p, minn p q)) in
  let B : 'M[rat]_(2, 1) := const_mx 1%R in
  let H := hat svd_U B in
  [/\ H^T%R = H, (H *m H)%R = H,
      ((1%:M - H) *m (1%:M - H))%R = (1%:M - H)%R
    & (H *m (1%:M - H))%R = 0%R].
Proof.
apply: (@hat_projection rat
          (fun p q _ => (pid_mx (minn p q) : 'M[rat]_(p, minn p q)))
          2 1 (const_mx 1%R)).
by rewrite tr_pid_mx mul_pid_mx /= pid_mx_1.
Defined.

Lemma lcr_matrix_centered_witness :
  let H : 'M[rat]_2 := 0%R in
  let d : 'cV[rat]_2 := const_mx 1%R in
  let Rm := lcr_matrix id H in
  let r := (d - H *m d)%R in
  let l := fun i : 'I_2 => (1 - H i i)%R in
  [/\ forall i : 'I_2, (0 < l i)%R,
      forall j : 'I_2, (\sum_i Rm i j = 0)%R
    & forall i : 'I_2,
        ((Rm *m d) i 0 = r i 0 / l i - (\sum_k r k 0 / l k) / 2%:R)%R].
Proof.
apply: (@lcr_matrix_centered rat id 2 0%R (const_mx 1%R)).
  by [].
by move=> i; rewrite mxE.
Defined.

Lemma ResidualBootstrapWrapper_getitem_twice_witness :
  let self : ResidualBootstrapWrapper rat 2 1 unit :=
    mkResidualBootstrapWrapper (fun _ : unit => 0%N) 0%R 0%R 0%R
      [tuple ord_max] in
  let draw : 1.-tuple 'I_1 := [tuple ord0] in
  let h : heap rat 2 := [:: const_mx 1%R] in
  let out1 := ResidualBootstrapWrapper_getitem self tt draw h in
  let out2 := ResidualBootstrapWrapper_getitem self tt draw out1.2 in
  [/\ out1.1 != out2.1,
      load out2.2 out1.1 = load out1.2 out1.1
    & load out2.2 out2.1 = load out1.2 out1.1].
Proof.
by apply: (@ResidualBootstrapWrapper_getitem_twice rat 2 1 unit
             (mkResidualBootstrapWrapper (fun _ : unit => 0%N) 0%R 0%R 0%R
                [tuple ord_max])
             tt [tuple ord0] [:: const_mx 1%R]).
Defined.

(* ---------------------------------------------------------------------- *)
(** * Further properties: the transforms *)
(* ---------------------------------------------------------------------- *)

Section TransformErrors.
Local Open Scope ring_scope.

Variable R : realFieldType.
Variable sqrt : R -> R.
Variable pinv : forall p q : nat, 'M[R]_(p, q) -> 'M[R]_(q, p).
Variables sph_harm_re sph_harm_im : Z -> Z -> R -> R -> R.
Variable junk : nat -> Z.
Variables V q : nat.
Variable sphere : Sphere R q.

(** An odd order makes both transforms raise the error of
    [sph_harm_ind_list], whatever the basis name: the order is looked at
    before the name. *)
Theorem transforms_odd_order (k : nat) (sf : 'M[R]_(V, q))
    (sh : 'M[R]_(V, k)) (sh_order : Z) (smooth : R)
    (basis_type : option string) :
  (sh_order mod 2 <> 0)%Z ->
  sf_to_sh sqrt pinv sph_harm_re sph_harm_im junk sf sphere sh_order
    basis_type smooth
  = ([:: OpIndList],
     Raise (ValueError "sh_order must be an even integer >= 0"))
  /\ sh_to_sf sqrt sph_harm_re sph_harm_im junk sh sphere sh_order basis_type
     = ([:: OpIndList],
        Raise (ValueError "sh_order must be an even integer >= 0")).
Proof.
move=> /eqP /negbTE Hodd.
by rewrite /sf_to_sh /sh_to_sf /sph_harm_ind_list Hodd.
Qed.

(** For an even order L >= 0 and a name of the table, [sf_to_sh] returns
    an array with (L+1)(L+2)/2 coefficients for each function. *)
Theorem sf_to_sh_coefficient_count (sf : 'M[R]_(V, q)) (sh_order : Z)
    (smooth : R) (basis_type : option string)
    (basis : Z -> Z -> R -> R -> R) :
  (0 <= sh_order)%Z -> (sh_order mod 2 = 0)%Z ->
  sph_harm_lookup sqrt sph_harm_re sph_harm_im basis_type = Some basis ->
  exists (k : nat) (sh : 'M[R]_(V, k)),
    sf_to_sh sqrt pinv sph_harm_re sph_harm_im junk sf sphere sh_order
      basis_type smooth
    = ([:: OpIndList; OpBasis; OpSmoothPinv; OpZeros; OpDot],
       Ok (existT (fun k => 'M[R]_(V, k)) k sh))
    /\ Z.of_nat k = ((sh_order + 1) * (sh_order + 2) / 2)%Z.
Proof.
move=> HL Hev Hbasis.
have Hmn := sph_harm_ind_list_blocks junk HL Hev.
have Hsize := esym (size_n_blocks (arange 0 (sh_order + 1) 2)).
eexists; eexists; split.
  exact: (sf_to_sh_valid pinv sphere sf smooth Hmn Hsize Hbasis).
rewrite size_m_blocks_order // Z2Nat.id; first by apply: Z.div_pos; nia.
by rewrite [((sh_order + 2) * _)%Z]Z.mul_comm.
Qed.

(** [sh_to_sf] on an array whose number of coefficients is not
    (L+1)(L+2)/2 raises, in the product with the basis matrix. *)
Theorem sh_to_sf_wrong_count (k : nat) (sh : 'M[R]_(V, k)) (sh_order : Z)
    (basis_type : option string) (basis : Z -> Z -> R -> R -> R) :
  (0 <= sh_order)%Z -> (sh_order mod 2 = 0)%Z ->
  sph_harm_lookup sqrt sph_harm_re sph_harm_im basis_type = Some basis ->
  Z.of_nat k <> ((sh_order + 1) * (sh_order + 2) / 2)%Z ->
  let out := sh_to_sf sqrt sph_harm_re sph_harm_im junk sh sphere sh_order
               basis_type in
  out.1 = [:: OpIndList; OpBasis; OpZeros; OpDot] /\ raises out.2.
Proof.
move=> HL Hev Hbasis Hk.
rewrite /sh_to_sf (sph_harm_ind_list_blocks junk HL Hev) Hbasis /=.
rewrite size_n_blocks eqxx /=.
case: eqP => // e; case: Hk; rewrite e size_m_blocks_order //.
rewrite Z2Nat.id; first by apply: Z.div_pos; nia.
by rewrite [((sh_order + 2) * _)%Z]Z.mul_comm.
Qed.

Lemma smooth_pinv_zero_weights (n m : nat) (B : 'M[R]_(n, m)) :
  is_pinv B (pinv B) ->
  is_pinv (col_mx B (diag_mx 0)) (pinv (col_mx B (diag_mx 0))) ->
  smooth_pinv pinv B 0 = pinv B.
Proof.
move=> HB HA; rewrite smooth_pinvE.
have /(is_pinv_col_mx0 m) HX := HB.
rewrite diag_mx0 in HA *.
by rewrite (is_pinv_unique HA HX) row_mxKl.
Qed.

(** Round trip.  Without smoothing, when the pseudo-inverse routine
    returns the pseudo-inverse of the basis matrix B and B has full column
    rank (pinv(B) B = I), the coefficients of the function sampled from
    the coefficients [sh] are [sh] again. *)
Theorem sf_to_sh_sh_to_sf (sh_order : Z) (basis_type : option string)
    (basis : Z -> Z -> R -> R -> R) (m n : seq Z)
    (sh : 'M[R]_(V, size m)) :
  sph_harm_ind_list junk sh_order = Ok (m, n) -> size m = size n ->
  sph_harm_lookup sqrt sph_harm_re sph_harm_im basis_type = Some basis ->
  sqrt 0 = 0 ->
  let B := basis_matrix basis m n (phi sphere) (theta sphere) in
  is_pinv B (pinv B) ->
  is_pinv (col_mx B (diag_mx 0)) (pinv (col_mx B (diag_mx 0))) ->
  pinv B *m B = 1%:M ->
  exists2 sf : 'M[R]_(V, q),
    sh_to_sf sqrt sph_harm_re sph_harm_im junk sh sphere sh_order basis_type
    = ([:: OpIndList; OpBasis; OpZeros; OpDot], Ok sf)
    & sf_to_sh sqrt pinv sph_harm_re sph_harm_im junk sf sphere sh_order
        basis_type 0
      = ([:: OpIndList; OpBasis; OpSmoothPinv; OpZeros; OpDot],
         Ok (existT (fun k => 'M[R]_(V, k)) (size m) sh)).
Proof.
move=> Hmn Hsize Hbasis Hsqrt B HB HA Hrank.
exists (sh *m B^T).
  exact: (sh_to_sf_valid sphere sh Hmn Hsize Hbasis).
rewrite (sf_to_sh_valid pinv sphere (sh *m B^T) 0 Hmn Hsize Hbasis).
rewrite Hsqrt scale0r -/B (smooth_pinv_zero_weights HB HA).
by rewrite -mulmxA -trmx_mul Hrank trmx1 mulmx1.
Qed.

End TransformErrors.

Lemma transforms_odd_order_witness :
  let pinv := fun (p q : nat) (A : 'M[rat]_(p, q)) => A^T%R in
  let re := fun (_ _ : Z) (_ _ : rat) => 1%R in
  let im := fun (_ _ : Z) (_ _ : rat) => 0%R in
  let junk := fun _ : nat => 0%Z in
  let sphere : Sphere rat 1 := mkSphere 0%R 0%R in
  sf_to_sh id pinv re im junk (1 : 'M[rat]_(1, 1))%R sphere 3
    (Some "mrtrix"%string) 0%R
  = ([:: OpIndList],
     Raise (ValueError "sh_order must be an even integer >= 0"))
  /\ sh_to_sf id re im junk (1 : 'M[rat]_(1, 1))%R sphere 3
       (Some "mrtrix"%string)
     = ([:: OpIndList],
        Raise (ValueError "sh_order must be an even integer >= 0")).
Proof.
by apply: (@transforms_odd_order rat id (fun p q A => A^T%R)
             (fun _ _ _ _ => 1%R) (fun _ _ _ _ => 0%R) (fun _ => 0%Z) 1 1
             (mkSphere (0 : 'rV[rat]_1)%R (0 : 'rV[rat]_1)%R) 1
             (1 : 'M[rat]_(1, 1))%R (1 : 'M[rat]_(1, 1))%R 3%Z 0%R
             (Some "mrtrix"%string)).
Defined.

Lemma sf_to_sh_coefficient_count_witness :
  let pinv := fun (p q : nat) (A : 'M[rat]_(p, q)) => A^T%R in
  let re := fun (_ _ : Z) (_ _ : rat) => 1%R in
  let im := fun (_ _ : Z) (_ _ : rat) => 0%R in
  let junk := fun _ : nat => 0%Z in
  let sphere : Sphere rat 1 := mkSphere 0%R 0%R in
  exists (k : nat) (sh : 'M[rat]_(1, k)),
    sf_to_sh id pinv re im junk (1 : 'M[rat]_(1, 1))%R sphere 2 None 0%R
    = ([:: OpIndList; OpBasis; OpSmoothPinv; OpZeros; OpDot],
       Ok (existT (fun k => 'M[rat]_(1, k)) k sh))
    /\ Z.of_nat k = ((2 + 1) * (2 + 2) / 2)%Z.
Proof.
by apply: (@sf_to_sh_coefficient_count rat id (fun p q A => A^T%R)
             (fun _ _ _ _ => 1%R) (fun _ _ _ _ => 0%R) (fun _ => 0%Z) 1 1
             (mkSphere (0 : 'rV[rat]_1)%R (0 : 'rV[rat]_1)%R)
             (1 : 'M[rat]_(1, 1))%R 2%Z 0%R None
             (real_sph_harm id (fun _ _ _ _ => 1%R) (fun _ _ _ _ => 0%R))).
Defined.

Lemma sh_to_sf_wrong_count_witness :
  let re := fun (_ _ : Z) (_ _ : rat) => 1%R in
  let im := fun (_ _ : Z) (_ _ : rat) => 0%R in
  let junk := fun _ : nat => 0%Z in
  let sphere : Sphere rat 1 := mkSphere 0%R 0%R in
  let out := sh_to_sf id re im junk (1 : 'M[rat]_(1, 1))%R sphere 2 None in
  out.1 = [:: OpIndList; OpBasis; OpZeros; OpDot] /\ raises out.2.
Proof.
by apply: (@sh_to_sf_wrong_count rat id
             (fun _ _ _ _ => 1%R) (fun _ _ _ _ => 0%R) (fun _ => 0%Z) 1 1
             (mkSphere (0 : 'rV[rat]_1)%R (0 : 'rV[rat]_1)%R) 1
             (1 : 'M[rat]_(1, 1))%R 2%Z None
             (real_sph_harm id (fun _ _ _ _ => 1%R) (fun _ _ _ _ => 0%R))).
Defined.

Lemma sf_to_sh_sh_to_sf_witness :
  let pinv := fun (p q : nat) (A : 'M[rat]_(p, q)) => A^T%R in
  let re := fun (_ _ : Z) (_ _ : rat) => 1%R in
  let im := fun (_ _ : Z) (_ _ : rat) => 0%R in
  let junk := fun _ : nat => 0%Z in
  let sphere : Sphere rat 1 := mkSphere 0%R 0%R in
  let sh : 'M[rat]_(1, 1) := const_mx 5%:R%R in
  exists2 sf : 'M[rat]_(1, 1),
    sh_to_sf id re im junk sh sphere 0 None
    = ([:: OpIndList; OpBasis; OpZeros; OpDot], Ok sf)
    & sf_to_sh id pinv re im junk sf sphere 0 None 0%R
      = ([:: OpIndList; OpBasis; OpSmoothPinv; OpZeros; OpDot],
         Ok (existT (fun k => 'M[rat]_(1, k)) 1%N sh)).
Proof.
pose re : Z -> Z -> rat -> rat -> rat := fun _ _ _ _ => 1%R.
pose im : Z -> Z -> rat -> rat -> rat := fun _ _ _ _ => 0%R.
pose sphere : Sphere rat 1 := mkSphere 0%R 0%R.
pose B : 'M[rat]_(1, 1) :=
  basis_matrix (real_sph_harm id re im) [:: 0%Z] [:: 0%Z]
    (phi sphere) (theta sphere).
have BE : B = 1%:M%R.
  by apply/matrixP=> i j; rewrite !mxE !ord1.
have BtB : (B^T *m B)%R = 1%:M%R by rewrite BE trmx1 mulmx1.
apply: (@sf_to_sh_sh_to_sf rat id (fun p q A => A^T%R) re im (fun _ => 0%Z)
          1 1 sphere 0%Z None (real_sph_harm id re im) [:: 0%Z] [:: 0%Z]
          (const_mx 5%:R%R)) => //.
- exact: is_pinv_trmx.
- apply: is_pinv_trmx.
  by rewrite diag_mx0 tr_col_mx mul_row_col BtB trmx0 mulmx0 addr0.
Defined.

(* ---------------------------------------------------------------------- *)
(** * Further properties: the index objects *)
(* ---------------------------------------------------------------------- *)

Section IndexErrors.
Local Open Scope Z_scope.

Variable T : Type.
Variable x0 : T.

Lemma getitem_ints_error (A : seq T) (pos : seq Z) (e : exn) :
  getitem_ints x0 A pos = Raise e -> e = IndexError "index is out of bounds".
Proof.
elim: pos => [|p pos IH] //=.
case: ifP => _; first by case.
by case: (getitem_ints x0 A pos) IH => [xs|e'] //= IH [<-]; apply: IH.
Qed.

Lemma getitem_lazy_index_raise (A : seq T) (ix : index) (e : exn) :
  getitem_lazy x0 A (lazy_index ix) = Raise e ->
  e = IndexError "index is out of bounds".
Proof.
rewrite /lazy_index.
set pos := match ix with BoolIndex _ => _ | IntIndex _ => _ end.
case: ifP => _ //=.
case: ifP => [_|/negbT]; first exact: getitem_ints_error.
rewrite negb_or negbK => /andP [_ /negbTE Hstep].
by rewrite /= /getitem_slice Hstep.
Qed.

(** Indexing with what [lazy_index] returned can fail in one way only,
    with the IndexError of a position out of bounds: a slice it makes
    never has the step zero. *)
Theorem getitem_lazy_index_error (A : seq T) (ix : index) :
  match getitem_lazy x0 A (lazy_index ix) with
  | Ok _ => True
  | Raise e => e = IndexError "index is out of bounds"
  end.
Proof.
case E: (getitem_lazy x0 A (lazy_index ix)) => [//|e].
exact: getitem_lazy_index_raise E.
Qed.

Lemma lazy_index_maskE (A : seq T) (bs : seq bool) :
  size bs = size A ->
  getitem_lazy x0 A (lazy_index (BoolIndex bs)) = Ok (mask bs A).
Proof.
move=> Hsz.
have -> : lazy_index (BoolIndex bs) = lazy_index (IntIndex (nonzero bs)) by [].
have Hr : all (in_range (size A)) (nonzero bs).
  by apply: nonzero_from_in_range; rewrite ?Hsz; lia.
have Hs : sorted Z.leb (nonzero bs).
  by apply: (@path_sorted _ _ (-1)); apply: nonzero_from_path.
rewrite (lazy_index_ascending x0 Hr Hs) (getitem_ints_in_range x0 Hr).
by have := @nonzero_from_mask _ x0 A bs 0; rewrite drop0 add0n Hsz => -> //.
Qed.

(** The two index objects a model makes from the b0 mask and from its
    negation select the b0 acquisitions and the diffusion-weighted ones,
    each in its order, and every acquisition is in exactly one of the two
    selections. *)
Theorem b0s_mask_partition (A : seq T) (b0s_mask : seq bool) :
  size b0s_mask = size A ->
  let _where_b0s := lazy_index (BoolIndex b0s_mask) in
  let _where_dwi := lazy_index (BoolIndex (map negb b0s_mask)) in
  [/\ getitem_lazy x0 A _where_b0s = Ok (mask b0s_mask A),
      getitem_lazy x0 A _where_dwi = Ok (mask (map negb b0s_mask) A),
      (size (mask b0s_mask A) + size (mask (map negb b0s_mask) A))%N = size A
    & forall i : nat, (i < size A)%N ->
        nth false b0s_mask i != nth false (map negb b0s_mask) i].
Proof.
move=> Hsz /=; split.
- exact: lazy_index_maskE.
- by apply: lazy_index_maskE; rewrite size_map.
- rewrite !size_mask ?size_map // count_map -Hsz.
  exact: (count_predC id).
- move=> i Hi; rewrite (nth_map false) ?Hsz //.
  by case: (nth false b0s_mask i).
Qed.

End IndexErrors.

Lemma b0s_mask_partition_witness :
  let A := [:: 10; 11; 12; 13]%Z in
  let b0s_mask := [:: true; false; false; true] in
  let _where_b0s := lazy_index (BoolIndex b0s_mask) in
  let _where_dwi := lazy_index (BoolIndex (map negb b0s_mask)) in
  [/\ getitem_lazy 0%Z A _where_b0s = Ok (mask b0s_mask A),
      getitem_lazy 0%Z A _where_dwi = Ok (mask (map negb b0s_mask) A),
      (size (mask b0s_mask A) + size (mask (map negb b0s_mask) A))%N = size A
    & forall i : nat, (i < size A)%N ->
        nth false b0s_mask i != nth false (map negb b0s_mask) i].
Proof.
by apply: (@b0s_mask_partition Z 0%Z [:: 10; 11; 12; 13]%Z
             [:: true; false; false; true]).
Defined.
